(** * transcribe_channel.py: a shallow embedding and its properties

    The program walks the videos of a channel, takes a caption track where
    there is one, falls back to speech transcription, writes one text file
    per video, keeps an append-only ledger ([manifest.jsonl]) and appends the
    fragments of the run to a combined document ([all_transcripts.txt]).

    Conventions of the embedding:
    - a Python [str] is the list of its code points ([pystr]); [len] is
      [length];
    - a file holds text. Every read and write of the source goes through
      text mode with [encoding="utf-8"]; in the state of a run the content
      of a file is the text that reading it returns, and writing a text
      makes it the content. Bytes that do not decode, code points that do
      not encode and the translation of carriage returns on reading are
      below this level; they are the matter of the part on files on disk,
      which has the codec, reading and writing in text mode, and the loader
      of the ledger, the append to it and the update of the combined
      document on the bytes of their files;
    - a pattern [*<id>*<ext>] is matched with the id taken literally, as it
      is for an id that is not empty and has no wildcard or path separator
      ([plain_id]); [Path.glob] refuses a pattern with an empty id, and the
      properties of the two acquirers are stated for plain ids;
    - the downloader (yt-dlp), the caption reader (webvtt), the speech engine
      (faster-whisper), the JSON codec and the transliteration table of
      [unidecode] are collaborators outside the repository: they are the
      fields of a [World], and the definitions that call them take it as a
      parameter;
    - [try]/[except Exception] is modelled in a small state-and-exception
      monad, so that an exception which is not caught aborts the run;
    - the directories the run creates and removes, and what it prints, are
      left out. *)

From Stdlib Require Import ZArith NArith QArith Qcanon Ascii String.
From stdpp Require Import base decidable numbers option list sorting strings gmap sets.

Set Default Proof Using "Type".
Set Warnings "-register-all".
Open Scope list_scope.

(** ** Python strings *)

Module Py.

Abbreviation pystr := (list N).

(** A string literal of the development, as code points. *)
Definition str (s : string) : pystr :=
  (fun a => N_of_ascii a) <$> list_ascii_of_string s.

(** [str.isspace] on one code point. *)
Definition isspace (c : N) : bool :=
  (((9 <=? c) && (c <=? 13)) || ((28 <=? c) && (c <=? 32))
   || (c =? 133) || (c =? 160) || (c =? 5760)
   || ((8192 <=? c) && (c <=? 8202))
   || (c =? 8232) || (c =? 8233) || (c =? 8239) || (c =? 8287)
   || (c =? 12288))%N.

(** [s.lstrip(chars)], [s.rstrip(chars)] for a set of characters given as a
    predicate. *)
Fixpoint lstrip_by (p : N -> bool) (s : pystr) : pystr :=
  match s with
  | [] => []
  | c :: s' => if p c then lstrip_by p s' else s
  end.

Fixpoint rstrip_by (p : N -> bool) (s : pystr) : pystr :=
  match s with
  | [] => []
  | c :: s' =>
      match rstrip_by p s' with
      | [] => if p c then [] else [c]
      | r => c :: r
      end
  end.

(** [s.strip()] *)
Definition strip (s : pystr) : pystr := lstrip_by isspace (rstrip_by isspace s).

(** [s.rstrip(chars)] *)
Definition rstrip_chars (chars : pystr) (s : pystr) : pystr :=
  rstrip_by (fun c => bool_decide (c ∈ chars)) s.

(** [s[:m]]: a negative bound counts from the end. *)
Definition slice_to (m : Z) (s : pystr) : pystr :=
  if (0 <=? m)%Z then take (Z.to_nat m) s
  else take (length s - Z.to_nat (- m)) s.

(** [s.replace(a, b)] for one-character [a] and [b]. *)
Definition replace_char (a b : N) (s : pystr) : pystr :=
  (fun c => if (c =? a)%N then b else c) <$> s.

(** [sep.join(parts)] *)
Fixpoint join (sep : pystr) (parts : list pystr) : pystr :=
  match parts with
  | [] => []
  | [p] => p
  | p :: ps => p ++ sep ++ join sep ps
  end.

(** [s.endswith(suffix)] for a one-character suffix. *)
Definition endswith_char (c : N) (s : pystr) : bool :=
  match last s with
  | Some d => (d =? c)%N
  | None => false
  end.

(** [re.sub(r"[cls]+", repl, s)]: the scan is either outside a match or
    inside one; a match is greedy, so a maximal run is consumed before the
    scan goes on. *)
Fixpoint re_sub_plus (cls : N -> bool) (repl s : pystr) : pystr :=
  match s with
  | [] => []
  | c :: s' =>
      if cls c then repl ++ re_sub_in cls repl s'
      else c :: re_sub_plus cls repl s'
  end
with re_sub_in (cls : N -> bool) (repl s : pystr) : pystr :=
  match s with
  | [] => []
  | c :: s' =>
      if cls c then re_sub_in cls repl s'
      else c :: re_sub_plus cls repl s'
  end.

(** The UTF-8 encoding of a text, as the list of its bytes, and its size. *)
Definition utf8_encode_char (c : N) : list N :=
  if (c <? 128)%N then [c]
  else if (c <? 2048)%N then
    [N.lor 192 (N.shiftr c 6); N.lor 128 (N.land c 63)]
  else if (c <? 65536)%N then
    [N.lor 224 (N.shiftr c 12); N.lor 128 (N.land (N.shiftr c 6) 63);
     N.lor 128 (N.land c 63)]
  else
    [N.lor 240 (N.shiftr c 18); N.lor 128 (N.land (N.shiftr c 12) 63);
     N.lor 128 (N.land (N.shiftr c 6) 63); N.lor 128 (N.land c 63)].

Definition utf8_encode (s : pystr) : list N := s ≫= utf8_encode_char.

Definition utf8_size (s : pystr) : nat := length (utf8_encode s).

End Py.

Import Py.

(** ** Slug namer: [safe_name] *)

(** The characters of the class [A-Za-z0-9\-\._ ]. *)
Definition in_safe_class (c : N) : bool :=
  (((65 <=? c) && (c <=? 90)) || ((97 <=? c) && (c <=? 122))
   || ((48 <=? c) && (c <=? 57))
   || (c =? 45) || (c =? 46) || (c =? 95) || (c =? 32))%N.

(** [SAFE = r"[^A-Za-z0-9\-\._ ]+"]: the class the pattern matches. *)
Definition SAFE (c : N) : bool := negb (in_safe_class c).

(** [unidecode(s)]: a code point below 128 stays, any other is replaced by
    the entry of the transliteration table (the empty string where the table
    has none). *)
Definition unidecode (tbl : N -> pystr) (s : pystr) : pystr :=
  s ≫= (fun c => if (c <? 128)%N then [c] else tbl c).

Definition safe_name (tbl : N -> pystr) (s : pystr) (maxlen : Z) : pystr :=
  let s := strip (unidecode tbl s) in
  let s := re_sub_plus SAFE (str "_") s in
  let s := strip (re_sub_plus isspace (str " ") s) in
  rstrip_chars (str "._- ") (slice_to maxlen s).

(** ** Caption normalisation: [vtt_to_txt] *)

Definition nl : pystr := [10%N].
Definition sp : pystr := [32%N].

(** The body of the first loop: [t = cue.text.replace("\n", " ").strip()],
    kept when it is not empty. *)
Definition cue_line (lines : list pystr) (cue : pystr) : list pystr :=
  let t := strip (replace_char 10 32 cue) in
  if bool_decide (t = []) then lines else lines ++ [t].

(** The body of the second loop, on the pair [(out, last)]. *)
Definition dedup_step (st : list pystr * pystr) (seg : pystr)
  : list pystr * pystr :=
  let '(out, last) := st in
  (if bool_decide (seg = last) then out else out ++ [seg], seg).

(** [vtt_to_txt], from the texts of the cues that [webvtt.read] yields. *)
Definition vtt_to_txt (cues : list pystr) : pystr :=
  let lines := foldl cue_line [] cues in
  let '(out, _) := foldl dedup_step ([], []) lines in
  strip (join sp out).

(** ** Exceptions and state *)

(** An instance of [Exception], by the name of its class. *)
Inductive PyExn := Exception (cls : string).

Inductive Outcome (A : Type) :=
| Ok (a : A)
| Raised (e : PyExn).
Arguments Ok {A} a.
Arguments Raised {A} e.

(** What the run asks of the outside world, in the order it asks. *)
Inductive Event :=
| FetchCaptions (url : pystr)
| FetchAudio (url : pystr)
| Transcribe (audio : pystr)
| Unlink (audio : pystr).

(** The channel directory: the per-video files of [txt/] by file name (a
    file holds the text that reading it in text mode returns), the ledger
    and the combined document ([None]: the file does not exist), and the
    requests made so far. *)
Record State := mkState {
  txt_files : gmap pystr pystr;
  manifest : option pystr;
  combined : option pystr;
  trace : list Event
}.

Definition M (A : Type) : Type := State -> Outcome A * State.

Definition ret {A} (a : A) : M A := fun st => (Ok a, st).

Definition bind {A B} (m : M A) (k : A -> M B) : M B :=
  fun st =>
    match m st with
    | (Ok a, st') => k a st'
    | (Raised e, st') => (Raised e, st')
    end.

Definition lift {A} (o : Outcome A) : M A := fun st => (o, st).

(** [try: body / except Exception: handler] *)
Definition try_except {A} (body : M A) (handler : PyExn -> M A) : M A :=
  fun st =>
    match body st with
    | (Ok a, st') => (Ok a, st')
    | (Raised e, st') => handler e st'
    end.

Definition get : M State := fun st => (Ok st, st).

Definition emit (ev : Event) : M unit :=
  fun st =>
    (Ok tt, mkState (txt_files st) (manifest st) (combined st)
                    (trace st ++ [ev])).

Notation "'do' x <- m ; k" := (bind m (fun x => k))
  (at level 10, x name, m at level 100, k at level 200).
Notation "'do' ' pat <- m ; k" :=
  (bind m (fun x => match x with pat => k end))
  (at level 10, pat pattern, m at level 100, k at level 200).
Notation "'run' m ; k" := (bind m (fun _ => k))
  (at level 10, m at level 100, k at level 200).

(** [for x in xs: acc = body(acc, x)] *)
Fixpoint for_each {A B} (body : A -> B -> M A) (acc : A) (xs : list B)
  : M A :=
  match xs with
  | [] => ret acc
  | x :: xs' => do acc' <- body acc x; for_each body acc' xs'
  end.

(** ** JSON values and the collaborators *)

(** What [json.loads] returns. A number is modelled by its value, which is
    how Python compares and hashes an [int] and a finite [float]; an object
    is the list of the entries of the [dict], in insertion order. *)
Inductive JValue :=
| JNull
| JBool (b : bool)
| JNum (q : Qc)
| JStr (s : pystr)
| JArr (l : list JValue)
| JObj (kvs : list (pystr * JValue)).

(** A member of a [set]: a hashable value up to [==]. *)
Inductive Key :=
| KNone
| KNum (q : Qc)
| KStr (s : pystr).

#[global] Instance Key_eq_dec : EqDecision Key.
Proof. solve_decision. Defined.

#[global] Instance Key_countable : Countable Key.
Proof.
  refine (inj_countable'
    (fun k => match k with
              | KNone => inl tt
              | KNum q => inr (inl q)
              | KStr s => inr (inr s)
              end)
    (fun x => match x with
              | inl _ => KNone
              | inr (inl q) => KNum q
              | inr (inr s) => KStr s
              end) _).
  intros []; reflexivity.
Defined.

(** [bool(v)] *)
Definition truthy (v : JValue) : bool :=
  match v with
  | JNull => false
  | JBool b => b
  | JNum q => negb (bool_decide (q = 0%Qc))
  | JStr s => negb (bool_decide (s = []))
  | JArr l => negb (bool_decide (l = []))
  | JObj kvs => negb (bool_decide (kvs = []))
  end.

(** [hash(v)] succeeds on the scalars and raises [TypeError] on a list or a
    dict; [True] is the number 1 and [False] the number 0. *)
Definition hash_key (v : JValue) : Outcome Key :=
  match v with
  | JNull => Ok KNone
  | JBool b => Ok (KNum (if b then 1%Qc else 0%Qc))
  | JNum q => Ok (KNum q)
  | JStr s => Ok (KStr s)
  | JArr _ | JObj _ => Raised (Exception "TypeError")
  end.

(** [obj.get(k)] on the entries of a dict; [None] is [JNull]. *)
Fixpoint dict_get (k : pystr) (kvs : list (pystr * JValue)) : JValue :=
  match kvs with
  | [] => JNull
  | (k', v) :: kvs' => if bool_decide (k' = k) then v else dict_get k kvs'
  end.

(** A caption file in the staging directory after a download: its name,
    its size, and what [webvtt.read] does on it (the texts of the cues, or an
    exception). *)
Record VttFile := mkVtt {
  vtt_name : pystr;
  vtt_size : nat;
  vtt_cues : Outcome (list pystr)
}.

(** The collaborators of a run.
    - [translit]: the table of [unidecode];
    - [json_loads], [json_dumps]: the JSON codec ([json_loads] raises on a
      text that is not JSON);
    - [yt_captions url]: the caption download for [url]: [None] when the
      downloader returns no information, otherwise the id it reports and the
      files of the caption directory after the download, in the order [glob]
      lists them;
    - [yt_audio url]: the audio download for [url]: [None] when the downloader
      returns no information, otherwise the title and the id it reports and
      the files of the audio directory after the download, with their sizes;
    - [engine audio]: the speech engine on an audio file (the texts of the
      segments, or an exception);
    - [unlink audio]: the removal of the audio file. *)
Record World := mkWorld {
  translit : N -> pystr;
  json_loads : pystr -> Outcome JValue;
  json_dumps : JValue -> pystr;
  yt_captions : pystr -> option (pystr * list VttFile);
  yt_audio : pystr -> option (pystr * pystr * list (pystr * nat));
  engine : pystr -> Outcome (list pystr);
  unlink : pystr -> Outcome unit
}.

(** ** File names in a staging directory *)

Fixpoint starts_with (p s : pystr) : bool :=
  match p, s with
  | [], _ => true
  | _ :: _, [] => false
  | a :: p', b :: s' => (a =? b)%N && starts_with p' s'
  end.

Fixpoint contains (p s : pystr) : bool :=
  starts_with p s
  || match s with
     | [] => false
     | _ :: s' => contains p s'
     end.

(** [name] matches the pattern [*{vid}*{ext}], for an id that the pattern
    takes literally: no wildcard, and not empty (the pattern of an empty id
    holds [**], which [Path.glob] refuses). *)
Definition glob_match (vid ext name : pystr) : bool :=
  bool_decide (drop (length name - length ext) name = ext)
  && contains vid (take (length name - length ext) name).

(** The first element of greatest size: [max(l, key=size)], and the head of
    [sorted(l, key=size, reverse=True)]. *)
Fixpoint largest {A} (size : A -> nat) (l : list A) : option A :=
  match l with
  | [] => None
  | x :: l' =>
      match largest size l' with
      | Some y => if size x <? size y then Some y else Some x
      | None => Some x
      end
  end.

(** ** Manifest ledger *)

(** The lines a text file yields when it is iterated: each line keeps its
    newline, the last one may lack it. *)
Fixpoint readlines_from (cur : pystr) (s : pystr) : list pystr :=
  match s with
  | [] => if bool_decide (cur = []) then [] else [cur]
  | c :: s' =>
      if (c =? 10)%N then (cur ++ [c]) :: readlines_from [] s'
      else readlines_from (cur ++ [c]) s'
  end.

Definition readlines (s : pystr) : list pystr := readlines_from [] s.

(** The body of the loop of [read_manifest_ids] (lines 142-147), with its
    [try]. *)
Definition manifest_line (w : World) (seen : gset Key) (line : pystr)
  : M (gset Key) :=
  try_except
    (do obj <- lift (json_loads w line);
     match obj with
     | JObj kvs =>
         if truthy (dict_get (str "id") kvs) then
           do k <- lift (hash_key (dict_get (str "id") kvs));
           ret ({[k]} ∪ seen)
         else ret seen
     | _ => ret seen
     end)
    (fun _ => ret seen).

Definition read_manifest_ids (w : World) : M (gset Key) :=
  do st <- get;
  match manifest st with
  | Some text => for_each (manifest_line w) ∅ (readlines text)
  | None => ret ∅
  end.

(** The record [{"id": vid, "title": title, "url": url, "path": path}]. *)
Definition manifest_record (vid title url path : pystr) : JValue :=
  JObj [(str "id", JStr vid); (str "title", JStr title);
        (str "url", JStr url); (str "path", JStr path)].

Definition append_manifest (w : World) (rec : JValue) : M unit :=
  fun st =>
    (Ok tt,
     mkState (txt_files st)
             (Some (default [] (manifest st) ++ json_dumps w rec ++ nl))
             (combined st) (trace st)).

(** ** The two acquirers *)

Definition try_download_subs (w : World) (video_url : pystr)
  : M (option pystr) :=
  run emit (FetchCaptions video_url);
  match yt_captions w video_url with
  | None => ret None
  | Some (vid, files) =>
      let vtts :=
        filter (fun f => glob_match vid (str ".vtt") (vtt_name f) = true)
               files in
      match largest vtt_size vtts with
      | None => ret None
      | Some vtt =>
          try_except
            (do cues <- lift (vtt_cues vtt); ret (Some (vtt_to_txt cues)))
            (fun _ => ret None)
      end
  end.

(** The audio file of a video in the audio directory: the file named after
    the slug, with one of the three extensions in turn; failing that, the
    largest file whose name holds the id. *)
Definition find_audio (tbl : N -> pystr) (title vid : pystr)
    (files : list (pystr * nat)) : option pystr :=
  let base := safe_name tbl (title ++ str " [" ++ vid ++ str "]") 80 in
  let exts := [str ".m4a"; str ".mp3"; str ".opus"] in
  match filter (fun ext => base ++ ext ∈ files.*1) exts with
  | ext :: _ => Some (base ++ ext)
  | [] =>
      let cands :=
        exts ≫= (fun ext =>
          filter (fun f : pystr * nat => glob_match vid ext f.1 = true) files)
      in
      fst <$> largest snd cands
  end.

Definition download_audio (w : World) (video_url : pystr)
  : M (option pystr) :=
  run emit (FetchAudio video_url);
  match yt_audio w video_url with
  | None => ret None
  | Some (title, vid, files) => ret (find_audio (translit w) title vid files)
  end.

Definition whisper_transcribe (w : World) (audio_path : pystr) : M pystr :=
  run emit (Transcribe audio_path);
  do segments <- lift (engine w audio_path);
  ret (strip (join sp (strip <$> segments))).

(** ** The run *)

(** The options [main] reads; the model, device, precision and language
    options only reach the collaborators. *)
Record Args := mkArgs {
  force : bool;
  skip_whisper : bool;
  limit : Z;
  rebuild_combined : bool
}.

(** An entry of the enumeration; a missing id or url is the empty string. *)
Record Entry := mkEntry {
  e_id : pystr;
  e_title : pystr;
  e_url : pystr
}.

#[global] Instance Entry_eq_dec : EqDecision Entry.
Proof. solve_decision. Defined.

(** [f"{title} [{vid}]"] through the slug namer, and the name of the
    per-video file. *)
Definition base_name (w : World) (title vid : pystr) : pystr :=
  safe_name (translit w) (title ++ str " [" ++ vid ++ str "]") 80.

Definition per_txt_name (w : World) (title vid : pystr) : pystr :=
  base_name w title vid ++ str ".txt".

(** [txt_dir / name], as a string. *)
Definition path_in (dir name : pystr) : pystr := dir ++ str "/" ++ name.

(** [f"# {title}\n# {url}\n\n{body}\n\n"] *)
Definition fragment (title url body : pystr) : pystr :=
  str "# " ++ title ++ nl ++ str "# " ++ url ++ nl ++ nl ++ body ++ nl ++ nl.

(** [per_txt.exists() and per_txt.stat().st_size > 32] *)
Definition txt_present (st : State) (name : pystr) : bool :=
  match txt_files st !! name with
  | Some content => bool_decide (32 < utf8_size content)
  | None => false
  end.

Definition write_txt (name text : pystr) : M unit :=
  fun st =>
    (Ok tt,
     mkState (<[name := text]> (txt_files st)) (manifest st) (combined st)
             (trace st)).

Definition write_combined (text : pystr) : M unit :=
  fun st =>
    (Ok tt, mkState (txt_files st) (manifest st) (Some text) (trace st)).

(** [not txt]: [None] or the empty string. *)
Definition falsy (txt : option pystr) : bool :=
  match txt with
  | Some (_ :: _) => false
  | _ => true
  end.

(** The escalation chain of one video (lines 228-242 of [main]): captions,
    then audio and speech. *)
Definition acquire (args : Args) (w : World) (url : pystr) : M pystr :=
  do txt <- try_download_subs w url;
  do txt <-
    (if (falsy txt || bool_decide (length (default [] txt) < 50))
        && negb (skip_whisper args)
     then
       do a <- download_audio w url;
       match a with
       | Some a =>
           do t <- try_except (whisper_transcribe w a) (fun _ => ret []);
           run try_except
                 (run emit (Unlink a); lift (unlink w a))
                 (fun _ => ret tt);
           ret (Some t)
       | None => ret txt
       end
     else ret txt);
  ret (if falsy txt then [] else default [] txt).

(** The body of the loop of [main] (lines 210-247), on the pair
    [(seen_ids, combined_parts)]. *)
Definition process_entry (args : Args) (w : World) (txt_dir : pystr)
    (acc : gset Key * list pystr) (e : Entry) : M (gset Key * list pystr) :=
  let '(seen_ids, combined_parts) := acc in
  let title := e_title e in
  let vid := e_id e in
  let url := e_url e in
  if bool_decide (url = []) || bool_decide (vid = []) then ret acc
  else
    let per_txt := per_txt_name w title vid in
    let rec := manifest_record vid title url (path_in txt_dir per_txt) in
    do st <- get;
    if negb (force args)
       && (bool_decide (KStr vid ∈ seen_ids) || txt_present st per_txt)
    then
      let existing :=
        match txt_files st !! per_txt with
        | Some content => strip content
        | None => []
        end in
      let combined_parts := combined_parts ++ [fragment title url existing] in
      if bool_decide (KStr vid ∉ seen_ids) then
        run append_manifest w rec;
        ret ({[KStr vid]} ∪ seen_ids, combined_parts)
      else ret (seen_ids, combined_parts)
    else
      do txt <- acquire args w url;
      run write_txt per_txt txt;
      run append_manifest w rec;
      ret ({[KStr vid]} ∪ seen_ids,
           combined_parts ++ [fragment title url txt]).

(** File names are sorted by code point. *)
Fixpoint name_le (a b : pystr) : bool :=
  match a, b with
  | [], _ => true
  | _ :: _, [] => false
  | x :: a', y :: b' => (x <? y)%N || ((x =? y)%N && name_le a' b')
  end.

Definition file_le (f g : pystr * pystr) : Prop := name_le f.1 g.1 = true.

#[global] Instance file_le_dec f g : Decision (file_le f g).
Proof. unfold file_le. apply _. Defined.

Definition is_txt (name : pystr) : bool :=
  bool_decide (drop (length name - 4) name = str ".txt")
  && bool_decide (4 <= length name).

(** [p.stem] of a name that ends in [.txt]. *)
Definition stem (name : pystr) : pystr :=
  if bool_decide (length name = 4) then name
  else take (length name - 4) name.

Definition rebuild_combined_from_txt : M unit :=
  do st <- get;
  let files :=
    merge_sort file_le
      (filter (fun f => is_txt f.1 = true) (map_to_list (txt_files st))) in
  let parts :=
    (fun f => str "# " ++ stem f.1 ++ nl ++ nl ++ strip f.2 ++ nl ++ nl)
      <$> files in
  write_combined (join nl parts).

(** [main], from the enumeration on (lines 182-254): [entries] is what
    [get_channel_entries_and_meta] returned and [txt_dir] the [txt]
    directory under [derive_channel_dir]. *)
Definition main (args : Args) (w : World) (txt_dir : pystr)
    (entries : list Entry) : M unit :=
  let entries :=
    if (0 <? limit args)%Z then take (Z.to_nat (limit args)) entries
    else entries in
  if bool_decide (entries = []) && negb (rebuild_combined args) then ret tt
  else if rebuild_combined args then rebuild_combined_from_txt
  else
    do seen_ids <- read_manifest_ids w;
    do '(_, combined_parts) <-
      for_each (process_entry args w txt_dir) (seen_ids, []) entries;
    do st <- get;
    match combined st with
    | Some prev =>
        write_combined
          (prev
           ++ (if negb (bool_decide (prev = [])) && negb (endswith_char 10 prev)
               then nl else [])
           ++ join nl combined_parts)
    | None => write_combined (join nl combined_parts)
    end.

(** * Definitions used to state the properties *)

(** A table with no entry: every code point from 128 on is dropped. *)
Definition no_table : N -> pystr := fun _ => [].

(** ** Maximal runs *)

(** [runs cls s] cuts [s] into its maximal blocks of characters that are all
    inside [cls] or all outside it; each block carries which. *)
Fixpoint runs (cls : N -> bool) (s : pystr) : list (bool * pystr) :=
  match s with
  | [] => []
  | c :: s' =>
      match runs cls s' with
      | (b, blk) :: rs =>
          if Bool.eqb b (cls c) then (b, c :: blk) :: rs
          else (cls c, [c]) :: (b, blk) :: rs
      | [] => [(cls c, [c])]
      end
  end.

(** Every maximal run of [cls] characters becomes [repl]; the other blocks
    stay. *)
Definition block_text (repl : pystr) (r : bool * pystr) : pystr :=
  if r.1 then repl else r.2.

Definition replace_runs (cls : N -> bool) (repl s : pystr) : pystr :=
  concat (block_text repl <$> runs cls s).

(** The slug namer, run by run: transliterate, trim, one underscore for
    every maximal run outside the class, one space for every run of
    whitespace, trim, cut, strip the trailing separators. *)
Definition slug_by_runs (tbl : N -> pystr) (s : pystr) (maxlen : Z) : pystr :=
  let s := strip (unidecode tbl s) in
  let s := replace_runs (fun c => negb (in_safe_class c)) (str "_") s in
  let s := strip (replace_runs isspace (str " ") s) in
  rstrip_chars (str "._- ") (slice_to maxlen s).

(** The slug namer read step by step from its description: transliterate,
    one underscore for each character outside the class, one space for every
    run of whitespace, trim, cut, strip the trailing separators. *)
Definition slug_per_character (tbl : N -> pystr) (s : pystr) (maxlen : Z)
  : pystr :=
  let s := unidecode tbl s in
  let s := (fun c => if in_safe_class c then c else 95%N) <$> s in
  let s := strip (replace_runs isspace (str " ") s) in
  rstrip_chars (str "._- ") (slice_to maxlen s).

(** Neighbouring blocks differ in kind. *)
Fixpoint alternating (rs : list (bool * pystr)) : Prop :=
  match rs with
  | r1 :: rs' =>
      match rs' with
      | r2 :: _ => r1.1 <> r2.1 /\ alternating rs'
      | [] => True
      end
  | [] => True
  end.

(** What [re_sub_in] leaves of the runs: the run under way is dropped. *)
Definition after_match (rs : list (bool * pystr)) : list (bool * pystr) :=
  match rs with
  | (true, _) :: rs' => rs'
  | _ => rs
  end.

(** A letter or a digit of ASCII. *)
Definition is_alnum (c : N) : bool :=
  (((48 <=? c) && (c <=? 57)) || ((65 <=? c) && (c <=? 90))
   || ((97 <=? c) && (c <=? 122)))%N.

(** ** Caption cues *)

(** The text of a cue, newlines turned into spaces, trimmed. *)
Definition cue_text (cue : pystr) : pystr := strip (replace_char 10 32 cue).

(** The texts that survive: the non-empty ones. *)
Definition cue_lines (cues : list pystr) : list pystr :=
  filter (fun t => t <> []) (cue_text <$> cues).

(** One occurrence for every run of equal neighbours. *)
Fixpoint collapse_repeats (l : list pystr) : list pystr :=
  match l with
  | [] => []
  | x :: l' =>
      match l' with
      | y :: _ =>
          if bool_decide (x = y) then collapse_repeats l'
          else x :: collapse_repeats l'
      | [] => [x]
      end
  end.

(** The elements of [l] that differ from the one before, [prev] being the
    one before the first. *)
Fixpoint keep_changes (prev : pystr) (l : list pystr) : list pystr :=
  match l with
  | [] => []
  | x :: l' =>
      (if bool_decide (x = prev) then [] else [x]) ++ keep_changes x l'
  end.

Fixpoint no_adjacent_equal (l : list pystr) : Prop :=
  match l with
  | x :: l' =>
      match l' with
      | y :: _ => x <> y /\ no_adjacent_equal l'
      | [] => True
      end
  | [] => True
  end.

(** [expand ns r] repeats the i-th element of [r] [ns !! i] times. *)
Definition expand (ns : list nat) (r : list pystr) : list pystr :=
  concat (zip_with (fun n x => replicate n x) ns r).

(** A text as [strip] leaves it. *)
Definition trimmed (s : pystr) : Prop :=
  (forall c, head s = Some c -> isspace c = false)
  /\ (forall c, last s = Some c -> isspace c = false).

(** ** Ledger lines *)

(** The lines of the ledger of a state; none when there is no ledger. *)
Definition ledger_lines (st : State) : list pystr :=
  match manifest st with
  | Some text => readlines text
  | None => []
  end.

(** A line that gives an id: it parses to a record whose id is truthy and
    hashable, and [k] is that id as a set member. *)
Definition gives_id (w : World) (line : pystr) (k : Key) : Prop :=
  exists kvs,
    json_loads w line = Ok (JObj kvs)
    /\ truthy (dict_get (str "id") kvs) = true
    /\ hash_key (dict_get (str "id") kvs) = Ok k.

(** A malformed line: it fails to parse, or parses to something that is not
    a record, or parses to a record that lacks an id. *)
Definition malformed (w : World) (line : pystr) : Prop :=
  (exists e, json_loads w line = Raised e)
  \/ (exists v, json_loads w line = Ok v /\ forall kvs, v <> JObj kvs)
  \/ (exists kvs, json_loads w line = Ok (JObj kvs)
                  /\ truthy (dict_get (str "id") kvs) = false).

(** A valid line for the video [vid]: a record whose id is the non-empty
    string [vid]. *)
Definition valid_line (w : World) (line vid : pystr) : Prop :=
  exists kvs,
    json_loads w line = Ok (JObj kvs)
    /\ dict_get (str "id") kvs = JStr vid
    /\ vid <> [].

(** The id a line contributes, if any. *)
Definition line_key (w : World) (line : pystr) : option Key :=
  match json_loads w line with
  | Ok (JObj kvs) =>
      if truthy (dict_get (str "id") kvs) then
        match hash_key (dict_get (str "id") kvs) with
        | Ok k => Some k
        | Raised _ => None
        end
      else None
  | _ => None
  end.

Definition add_line (w : World) (seen : gset Key) (line : pystr) : gset Key :=
  match line_key w line with
  | Some k => {[k]} ∪ seen
  | None => seen
  end.

(** ** One video, seen from outside *)

Definition add_trace (st : State) (evs : list Event) : State :=
  mkState (txt_files st) (manifest st) (combined st) (trace st ++ evs).

(** The caption file [try_download_subs] reads, if any. *)
Definition caption_file (w : World) (url : pystr) : option VttFile :=
  match yt_captions w url with
  | Some (vid, files) =>
      largest vtt_size
        (filter (fun f => glob_match vid (str ".vtt") (vtt_name f) = true)
                files)
  | None => None
  end.

(** The Tier-1 result: what [try_download_subs] returns. *)
Definition tier1 (w : World) (url : pystr) : option pystr :=
  match caption_file w url with
  | Some vtt =>
      match vtt_cues vtt with
      | Ok cues => Some (vtt_to_txt cues)
      | Raised _ => None
      end
  | None => None
  end.

(** The audio file [download_audio] returns, if any. *)
Definition audio_of (w : World) (url : pystr) : option pystr :=
  match yt_audio w url with
  | Some (title, vid, files) => find_audio (translit w) title vid files
  | None => None
  end.

(** The Tier-1 result is empty or shorter than 50 characters. *)
Definition too_short (t1 : option pystr) : Prop :=
  t1 = None \/ t1 = Some [] \/ exists t, t1 = Some t /\ length t < 50.

(** The Tier-3 result on an audio file: an exception of the engine counts as
    the empty text. *)
Definition tier3 (w : World) (audio : pystr) : pystr :=
  match engine w audio with
  | Ok segments => strip (join sp (strip <$> segments))
  | Raised _ => []
  end.

Definition escalates (args : Args) (w : World) (url : pystr) : bool :=
  (falsy (tier1 w url) || bool_decide (length (default [] (tier1 w url)) < 50))
  && negb (skip_whisper args).

Definition acquire_text (args : Args) (w : World) (url : pystr) : pystr :=
  if escalates args w url then
    match audio_of w url with
    | Some a => tier3 w a
    | None => default [] (tier1 w url)
    end
  else default [] (tier1 w url).

Definition acquire_events (args : Args) (w : World) (url : pystr)
  : list Event :=
  FetchCaptions url
  :: (if escalates args w url then
        FetchAudio url
        :: match audio_of w url with
           | Some a => [Transcribe a; Unlink a]
           | None => []
           end
      else []).

(** An entry the loop does not pass over: it has a url and an id. *)
Definition has_url_and_id (e : Entry) : Prop := e_url e <> [] /\ e_id e <> [].

(** The test of the resume check on an entry. *)
Definition already_done (w : World) (seen : gset Key) (st : State) (e : Entry)
  : Prop :=
  KStr (e_id e) ∈ seen
  \/ exists content,
       txt_files st !! per_txt_name w (e_title e) (e_id e) = Some content
       /\ 32 < utf8_size content.

(** The ledger record of an entry. *)
Definition entry_record (w : World) (txt_dir : pystr) (e : Entry) : JValue :=
  manifest_record (e_id e) (e_title e) (e_url e)
    (path_in txt_dir (per_txt_name w (e_title e) (e_id e))).

(** The ledger with one more record. *)
Definition ledger_plus (w : World) (ledger : option pystr) (rec : JValue)
  : option pystr :=
  Some (default [] ledger ++ json_dumps w rec ++ nl).

#[global] Instance has_url_and_id_dec e : Decision (has_url_and_id e).
Proof. unfold has_url_and_id. apply _. Defined.

#[global] Instance already_done_dec w seen st e :
  Decision (already_done w seen st e).
Proof.
  unfold already_done.
  destruct (decide (KStr (e_id e) ∈ seen)); [left; auto |].
  destruct (txt_files st !! per_txt_name w (e_title e) (e_id e)) as [c|].
  - destruct (decide (32 < utf8_size c)).
    + left. right. eauto.
    + right. intros [? | (c' & [= <-] & ?)]; contradiction.
  - right. intros [? | (c' & ? & _)]; [contradiction | discriminate].
Defined.

(** What the resume check reads back for the fragment of a video. *)
Definition existing_text (w : World) (st : State) (e : Entry) : pystr :=
  match txt_files st !! per_txt_name w (e_title e) (e_id e) with
  | Some content => strip content
  | None => []
  end.

(** The state after a video has been acquired anew. *)
Definition acquired_state (args : Args) (w : World) (txt_dir : pystr)
    (st : State) (e : Entry) : State :=
  mkState
    (<[per_txt_name w (e_title e) (e_id e) := acquire_text args w (e_url e)]>
       (txt_files st))
    (ledger_plus w (manifest st) (entry_record w txt_dir e))
    (combined st)
    (trace st ++ acquire_events args w (e_url e)).

(** The state after a video has been skipped. *)
Definition skipped_state (w : World) (txt_dir : pystr) (seen : gset Key)
    (st : State) (e : Entry) : State :=
  if bool_decide (KStr (e_id e) ∈ seen) then st
  else mkState (txt_files st)
               (ledger_plus w (manifest st) (entry_record w txt_dir e))
               (combined st) (trace st).

(** The loop of [main] as a transition on
    [((seen_ids, combined_parts), state)]. *)
Definition step (args : Args) (w : World) (txt_dir : pystr)
    (x : (gset Key * list pystr) * State) (e : Entry)
  : (gset Key * list pystr) * State :=
  let '((seen, parts), st) := x in
  if decide (has_url_and_id e) then
    if decide (force args = false /\ already_done w seen st e) then
      (({[KStr (e_id e)]} ∪ seen,
        parts ++ [fragment (e_title e) (e_url e) (existing_text w st e)]),
       skipped_state w txt_dir seen st e)
    else
      (({[KStr (e_id e)]} ∪ seen,
        parts ++ [fragment (e_title e) (e_url e)
                    (acquire_text args w (e_url e))]),
       acquired_state args w txt_dir st e)
  else x.

(** The entries the loop runs over: the enumeration cut at the limit. *)
Definition enumerated (args : Args) (entries : list Entry) : list Entry :=
  if (0 <? limit args)%Z then take (Z.to_nat (limit args)) entries
  else entries.

(** The newline [main] puts between the old document and the new part. *)
Definition separator (prev : pystr) : pystr :=
  if negb (bool_decide (prev = [])) && negb (endswith_char 10 prev)
  then nl else [].

(** The ids [main] starts from: what the ledger loads to. *)
Definition loaded_ids (w : World) (st : State) : gset Key :=
  foldl (add_line w) ∅ (ledger_lines st).

(** The state at the end of the loop of a run, with the id set and the
    fragments collected. *)
Definition after_loop (args : Args) (w : World) (txt_dir : pystr)
    (entries : list Entry) (st : State) : (gset Key * list pystr) * State :=
  foldl (step args w txt_dir) ((loaded_ids w st, []), st)
        (enumerated args entries).

(** The fragment headed by the title and the url of an entry. *)
Definition entry_fragment (e : Entry) (body : pystr) : pystr :=
  fragment (e_title e) (e_url e) body.

(** ** A small world to run the definitions in *)

Module Demo.

(** A JSON codec for records of strings without quotes or escapes, written
    as [json.dumps] writes them: [{"k": "v", "k2": "v2"}]. *)
Fixpoint until_quote (s : pystr) : option (pystr * pystr) :=
  match s with
  | [] => None
  | c :: s' =>
      if (c =? 34)%N then Some ([], s')
      else match until_quote s' with
           | Some (a, r) => Some (c :: a, r)
           | None => None
           end
  end.

Fixpoint members (fuel : nat) (s : pystr) : option (list (pystr * JValue)) :=
  match fuel with
  | 0 => None
  | S fuel =>
      match s with
      | 34%N :: s1 =>
          match until_quote s1 with
          | Some (k, 58%N :: 32%N :: 34%N :: s2) =>
              match until_quote s2 with
              | Some (v, 125%N :: rest) =>
                  if bool_decide (rest = [] \/ rest = nl)
                  then Some [(k, JStr v)] else None
              | Some (v, 44%N :: 32%N :: s3) =>
                  (fun ms => (k, JStr v) :: ms) <$> members fuel s3
              | _ => None
              end
          | _ => None
          end
      | _ => None
      end
  end.

Definition loads (line : pystr) : Outcome JValue :=
  match line with
  | 123%N :: s =>
      match members (length s) s with
      | Some ms => Ok (JObj ms)
      | None => Raised (Exception "JSONDecodeError")
      end
  | _ => Raised (Exception "JSONDecodeError")
  end.

Definition dump_member (kv : pystr * JValue) : pystr :=
  [34%N] ++ kv.1 ++ [34%N; 58%N; 32%N; 34%N]
  ++ match kv.2 with JStr v => v | _ => [] end ++ [34%N].

Definition dumps (v : JValue) : pystr :=
  match v with
  | JObj kvs => [123%N] ++ join (str ", ") (dump_member <$> kvs) ++ [125%N]
  | _ => str "null"
  end.

(** Two videos: the first has a caption track of more than 50 characters,
    the second has none, its audio can be fetched and the engine raises on
    it. *)
Definition url_a : pystr := str "https://video.example/watch?v=aaa".
Definition url_b : pystr := str "https://video.example/watch?v=bbb".

Definition video_a : Entry := mkEntry (str "aaa") (str "First talk") url_a.
Definition video_b : Entry := mkEntry (str "bbb") (str "Second talk") url_b.

Definition captions (url : pystr) : option (pystr * list VttFile) :=
  if bool_decide (url = url_a) then
    Some (str "aaa",
          [mkVtt (str "First talk [aaa].en.vtt") 212
                 (Ok [str "welcome to the first talk of this series";
                      str "welcome to the first talk of this series";
                      str "today we look at ledgers"])])
  else if bool_decide (url = url_b) then Some (str "bbb", [])
  else None.

Definition audio (url : pystr)
  : option (pystr * pystr * list (pystr * nat)) :=
  if bool_decide (url = url_b) then
    Some (str "Second talk", str "bbb", [(str "Second talk [bbb].m4a", 4096)])
  else None.

Definition world : World :=
  mkWorld no_table loads dumps captions audio
          (fun _ => Raised (Exception "RuntimeError"))
          (fun _ => Ok tt).

(** A world whose only caption track, for every video, is one cue of [n]
    letters; the audio can always be fetched. *)
Definition captioned (n : nat) : World :=
  mkWorld no_table loads dumps
          (fun _ => Some (str "ccc",
                          [mkVtt (str "Talk [ccc].en.vtt") n
                                 (Ok [replicate n 97%N])]))
          (fun _ => Some (str "Talk", str "ccc",
                          [(str "Talk [ccc].m4a", 4096)]))
          (fun _ => Ok [str "spoken words"])
          (fun _ => Ok tt).

Definition txt_dir : pystr := str "out/Channel/txt".

Definition plain : Args := mkArgs false false 0 false.
Definition forced : Args := mkArgs true false 0 false.

Definition fresh : State := mkState ∅ None None [].

(** The state a crash leaves between the write of the per-video file of the
    first video and the append of its ledger record. *)
Definition crashed : State :=
  mkState
    {[ per_txt_name world (e_title video_a) (e_id video_a)
       := str "welcome to the first talk of this series today we look at ledgers" ]}
    None None [].

(** The state after the run of [main] on a world state, whatever it
    returns. *)
Definition after (args : Args) (entries : list Entry) (st : State) : State :=
  (main args world txt_dir entries st).2.


(** The state after a first run over the two videos. *)
Definition first_run : State := after plain [video_a; video_b] fresh.

Definition line_a : pystr := dumps (entry_record world txt_dir video_a) ++ nl.
Definition line_b : pystr := dumps (entry_record world txt_dir video_b) ++ nl.
Definition torn_line : pystr := str "{truncated" ++ nl.

(** A ledger with a malformed line between two records. *)
Definition torn : State :=
  mkState ∅ (Some (line_a ++ torn_line ++ line_b)) None [].

End Demo.

(** ** The ids of the ledger *)

(** The ids of the records of the ledger, line by line, with repeats. *)
Definition ledger_keys (w : World) (st : State) : list Key :=
  omap (line_key w) (ledger_lines st).

(** The ledger is absent, empty, or ends in a newline: no torn last line. *)
Definition ledger_closed (st : State) : Prop :=
  default [] (manifest st) = [] \/ last (default [] (manifest st)) = Some 10%N.

(** The codec writes the record of an entry on one line and reads the line
    back as a record of the id of the entry. *)
Definition reads_back (w : World) (txt_dir : pystr) (e : Entry) : Prop :=
  (10%N ∉ json_dumps w (entry_record w txt_dir e))
  /\ line_key w (json_dumps w (entry_record w txt_dir e) ++ nl)
     = Some (KStr (e_id e)).

(** What the loop keeps true of the ledger and of the id set in a run
    without the force option. *)
Definition ledger_inv (w : World) (x : (gset Key * list pystr) * State)
  : Prop :=
  ledger_closed x.2
  /\ NoDup (ledger_keys w x.2)
  /\ (forall k, k ∈ ledger_keys w x.2 -> k ∈ x.1.1).

(** * The rest of the program *)

(** ** Ledger: what an append does to the lines *)



(** The id set agrees with the ledger: it holds the ids of the ledger and
    nothing else. *)
Definition ids_match (w : World) (seen : gset Key) (st : State) : Prop :=
  forall k, k ∈ seen <-> k ∈ ledger_keys w st.

Module Demo2.


(** A per-video file of the first video that somebody wrote by hand. *)
Definition notes : pystr :=
  str "my own notes on the first talk, longer than 32 bytes".

Definition annotated : State :=
  mkState
    {[ per_txt_name Demo.world (e_title Demo.video_a) (e_id Demo.video_a)
       := notes ]}
    None None [].

End Demo2.

(** ** Rebuilding the combined document *)



Module Demo3.

(** Three per-video files and a file that is not a [.txt] file. *)
Definition shelf : State :=
  mkState
    (<[str "c.txt" := str " gamma "]>
       (<[str "a.txt" := str "alpha"]>
          (<[str "notes.md" := str "skip me"]>
             {[str "b.txt" := str "beta"]})))
    (Some Demo.line_a) (Some (str "stale")) [].

End Demo3.

(** ** The enumeration and the channel directory *)

(** An entry of the flat playlist as the downloader reports it; a field is
    [None] when the key is missing or its value is [None]. *)
Record RawEntry := mkRaw {
  r_type : option pystr;
  r_url : option pystr;
  r_id : option pystr;
  r_title : option pystr
}.

(** What [extract_info] returns for the channel. *)
Record Info := mkInfo {
  i_entries : option (list (option RawEntry));
  i_uploader : option pystr;
  i_channel : option pystr;
  i_uploader_id : option pystr;
  i_channel_id : option pystr;
  i_webpage_url : option pystr
}.

Record Meta := mkMeta {
  uploader : pystr;
  uploader_id : pystr;
  channel_url : pystr
}.

(** [a or b] for [a] a string or [None]. *)
Definition or_str (a : option pystr) (b : pystr) : pystr :=
  match a with
  | Some (c :: s) => c :: s
  | _ => b
  end.

(** The body of the loop of [get_channel_entries_and_meta] (lines 64-72). *)
Definition collect_entry (entries : list Entry) (e : option RawEntry)
  : list Entry :=
  match e with
  | None => entries
  | Some e =>
      if bool_decide (r_type e = Some (str "url")) && negb (falsy (r_url e))
      then entries
           ++ [mkEntry (default [] (r_id e)) (or_str (r_title e) [])
                       (default [] (r_url e))]
      else entries
  end.

(** [get_channel_entries_and_meta], from what [extract_info] returned
    ([None]: nothing, or an empty dict); the meta is [None] for [{}]. *)
Definition get_channel_entries_and_meta (info : option Info)
    (channel_url_arg : pystr) : list Entry * option Meta :=
  match info with
  | None => ([], None)
  | Some info =>
      (foldl collect_entry [] (default [] (i_entries info)),
       Some (mkMeta
               (or_str (i_uploader info) (or_str (i_channel info) []))
               (or_str (i_uploader_id info) (or_str (i_channel_id info) []))
               (or_str (i_webpage_url info) channel_url_arg)))
  end.

(** [s.split("/")[-1]]: what follows the last slash. *)
Definition last_segment (s : pystr) : pystr :=
  foldl (fun cur c => if (c =? 47)%N then [] else cur ++ [c]) [] s.

(** The name [derive_channel_dir] makes the slug of (lines 82-84). *)
Definition channel_candidate (meta : option Meta) (channel_url_arg : pystr)
  : pystr :=
  let cand :=
    match meta with
    | Some m =>
        if bool_decide (uploader m = []) then uploader_id m else uploader m
    | None => []
    end in
  if bool_decide (cand = []) then
    let seg := last_segment (rstrip_chars (str "/") channel_url_arg) in
    if bool_decide (seg = []) then str "channel" else seg
  else cand.

(** A path as the list of its parts; [root / name] adds the part [name],
    and is [root] when [name] is empty. *)
Definition path_child (root : list pystr) (name : pystr) : list pystr :=
  if bool_decide (name = []) then root else root ++ [name].

Definition derive_channel_dir (tbl : N -> pystr) (project_root : list pystr)
    (meta : option Meta) (channel_url_arg : pystr) : list pystr :=
  let chan_slug := safe_name tbl (channel_candidate meta channel_url_arg) 80 in
  path_child project_root chan_slug.

(** The entry [collect_entry] makes of a raw entry, if any. *)
Definition entry_of (e : option RawEntry) : option Entry :=
  match e with
  | Some r =>
      match r_type r, r_url r with
      | Some t, Some (c :: u) =>
          if bool_decide (t = str "url")
          then Some (mkEntry (default [] (r_id r)) (or_str (r_title r) [])
                             (c :: u))
          else None
      | _, _ => None
      end
  | None => None
  end.

(** ** Audio files *)

Definition audio_exts : list pystr := [str ".m4a"; str ".mp3"; str ".opus"].

(** The file named after the slug of [<title> [<id>]]. *)
Definition slug_file (tbl : N -> pystr) (title vid ext : pystr) : pystr :=
  safe_name tbl (title ++ str " [" ++ vid ++ str "]") 80 ++ ext.

(** The files [find_audio] falls back on, by extension. *)
Definition audio_candidates (vid : pystr) (files : list (pystr * nat))
  : list (pystr * nat) :=
  audio_exts ≫= (fun ext =>
    filter (fun f : pystr * nat => glob_match vid ext f.1 = true) files).

(** The name ends in [ext] and holds the id before it. *)
Definition holds_id (vid ext name : pystr) : Prop :=
  exists a b, name = a ++ vid ++ b ++ ext.

(** ** Texts that a substitution of runs leaves alone *)

(** Every character of [cls] in [s] is [r] and is followed by a character
    outside [cls], or by nothing. *)
Fixpoint settled (cls : N -> bool) (r : N) (s : pystr) : Prop :=
  match s with
  | [] => True
  | c :: s' =>
      (cls c = true ->
       c = r /\ match s' with d :: _ => cls d = false | [] => True end)
      /\ settled cls r s'
  end.

(** A cue without text: whitespace only. *)
Definition blank (s : pystr) : Prop := Forall (fun c => isspace c = true) s.

(** ** The caption languages of [main] *)

(** [s.split(sep)] for a one-character separator: never empty, the empty
    string gives one empty piece. *)
Fixpoint split_char (sep : N) (s : pystr) : list pystr :=
  match s with
  | [] => [[]]
  | c :: s' =>
      if (c =? sep)%N then [] :: split_char sep s'
      else match split_char sep s' with
           | p :: ps => (c :: p) :: ps
           | [] => [[c]]
           end
  end.

Definition comma : N := 44%N.

(** [[x.strip() for x in args.langs.split(",") if x.strip()]] *)
Definition lang_list (langs : pystr) : list pystr :=
  strip <$> filter (fun x => strip x <> []) (split_char comma langs).

(** A language code as the list holds it. *)
Definition clean_code (l : pystr) : Prop :=
  l <> [] /\ trimmed l /\ comma ∉ l.

(** ** The requests of a run *)

(** What acquiring the videos [done] anew asks of the downloader and of the
    engine, in order. *)
Definition requests_of (args : Args) (w : World) (done : list Entry)
  : list Event :=
  done ≫= (fun e => acquire_events args w (e_url e)).

(** * Files on disk *)

(** The definitions above hold every file by its text. On disk a file is
    bytes, and text mode with [encoding="utf-8"] stands between the two:
    reading decodes the bytes (bytes that are not UTF-8 raise
    [UnicodeDecodeError]) and turns every [\r\n] and every other [\r] into
    [\n]; writing encodes the text (a surrogate code point raises
    [UnicodeEncodeError]) and writes [\n] as it is, as on POSIX. What
    follows is that layer, and the places of the program that read and
    write the ledger and the combined document, on the bytes of their
    files: the loader of the ledger, the append to it, and the update of
    the combined document. *)

(** ** The codec *)

Definition continuation (b : N) : bool := ((128 <=? b) && (b <=? 191))%N.

Definition surrogate (c : N) : bool := ((55296 <=? c) && (c <=? 57343))%N.

(** A code point that the codec writes: no surrogate, at most U+10FFFF. *)
Definition encodable (c : N) : bool := negb (surrogate c) && (c <=? 1114111)%N.

(** [bytes.decode("utf-8")], strict: [None] where Python raises. A lead byte
    says how many continuation bytes follow; overlong forms, surrogates and
    values above U+10FFFF are refused. *)
Fixpoint utf8_decode (bs : list N) : option pystr :=
  match bs with
  | [] => Some []
  | b0 :: r0 =>
      if (b0 <? 128)%N then cons b0 <$> utf8_decode r0
      else if ((194 <=? b0) && (b0 <=? 223))%N then
        match r0 with
        | b1 :: r1 =>
            if continuation b1
            then cons ((b0 - 192) * 64 + (b1 - 128))%N <$> utf8_decode r1
            else None
        | _ => None
        end
      else if ((224 <=? b0) && (b0 <=? 239))%N then
        match r0 with
        | b1 :: b2 :: r2 =>
            let c := ((b0 - 224) * 4096 + (b1 - 128) * 64 + (b2 - 128))%N in
            if continuation b1 && continuation b2
               && (2048 <=? c)%N && negb (surrogate c)
            then cons c <$> utf8_decode r2
            else None
        | _ => None
        end
      else if ((240 <=? b0) && (b0 <=? 244))%N then
        match r0 with
        | b1 :: b2 :: b3 :: r3 =>
            let c := ((b0 - 240) * 262144 + (b1 - 128) * 4096
                      + (b2 - 128) * 64 + (b3 - 128))%N in
            if continuation b1 && continuation b2 && continuation b3
               && (65536 <=? c)%N && (c <=? 1114111)%N
            then cons c <$> utf8_decode r3
            else None
        | _ => None
        end
      else None
  end.

(** Universal newlines, as text mode reads: [\r\n] and [\r] become [\n]. *)
Fixpoint universal_newlines (s : pystr) : pystr :=
  match s with
  | [] => []
  | c :: s' =>
      if (c =? 13)%N then
        10%N :: match s' with
                | d :: s'' =>
                    if (d =? 10)%N then universal_newlines s''
                    else universal_newlines s'
                | [] => []
                end
      else c :: universal_newlines s'
  end.

(** [path.read_text(encoding="utf-8")], and what iterating an open text
    file goes through before it yields a line. *)
Definition read_text (bs : list N) : Outcome pystr :=
  match utf8_decode bs with
  | Some t => Ok (universal_newlines t)
  | None => Raised (Exception "UnicodeDecodeError")
  end.

(** What a write in text mode does with its text before a byte is written:
    it encodes the whole of it, and a code point that does not encode
    raises. *)
Definition encode_text (t : pystr) : Outcome (list N) :=
  if forallb encodable t then Ok (utf8_encode t)
  else Raised (Exception "UnicodeEncodeError").

(** [path.write_text(t, encoding="utf-8")]: opening the file for writing
    empties it. The result is the outcome and the bytes the file holds
    afterwards. *)
Definition write_text (t : pystr) : Outcome unit * list N :=
  match encode_text t with
  | Ok bs => (Ok tt, bs)
  | Raised e => (Raised e, [])
  end.

(** ** The loader on the ledger file *)

(** [read_manifest_ids] on the file ([None]: there is no file). The
    iteration [for line in mf] decodes the file, and it stands outside the
    [try] of the loop; the loop is [read_manifest_ids] on the text read. *)
Definition read_manifest_ids_file (w : World) (file : option (list N))
  : Outcome (gset Key) :=
  match file with
  | None => Ok ∅
  | Some bs =>
      match read_text bs with
      | Ok text => (read_manifest_ids w (mkState ∅ (Some text) None [])).1
      | Raised e => Raised e
      end
  end.

(** ** The append to the ledger file *)

(** [append_manifest] on the file ([None]: there is no file). Opening for
    append makes the file when there is none and keeps what it holds; the
    line is written after it. The result is the outcome and the file
    afterwards. *)
Definition append_manifest_file (w : World) (rec : JValue)
    (file : option (list N)) : Outcome unit * option (list N) :=
  match encode_text (json_dumps w rec ++ nl) with
  | Ok bs => (Ok tt, Some (default [] file ++ bs))
  | Raised e => (Raised e, Some (default [] file))
  end.

(** ** The update of the combined document *)

(** The end of [main] (lines 249-254) on the file of the combined document
    ([None]: there is no file), with the fragments of the run. The result is
    the outcome and the file afterwards. *)
Definition write_combined_file (file : option (list N))
    (combined_parts : list pystr) : Outcome unit * option (list N) :=
  match file with
  | Some bs =>
      match read_text bs with
      | Ok prev =>
          let '(r, bs') :=
            write_text
              (prev
               ++ (if negb (bool_decide (prev = []))
                      && negb (endswith_char 10 prev)
                   then nl else [])
               ++ join nl combined_parts) in
          (r, Some bs')
      | Raised e => (Raised e, Some bs)
      end
  | None =>
      let '(r, bs') := write_text (join nl combined_parts) in (r, Some bs')
  end.


Module Disk.

(** A video whose title is not ASCII. *)
Definition video_c : Entry :=
  mkEntry (str "ccc") (str "Caf" ++ [233%N] ++ str " talk")
          (str "https://video.example/watch?v=ccc").

Definition line_c : pystr :=
  Demo.dumps (entry_record Demo.world Demo.txt_dir video_c) ++ nl.

(** The text before the first [c]. *)
Fixpoint before (c : N) (s : pystr) : pystr :=
  match s with
  | [] => []
  | x :: r => if (x =? c)%N then [] else x :: before c r
  end.

(** The record of [video_c] up to its [é], which is written as the two
    bytes [C3 A9]. *)
Definition cut_line : pystr := before 233 line_c.

(** The ledger after the record of the first video and a write of the record
    of [video_c] that stopped before the [é]. *)
Definition torn_before : list N := utf8_encode (Demo.line_a ++ cut_line).

(** The same write stopped one byte later, inside the [é]. *)
Definition torn_inside : list N := torn_before ++ [195%N].


End Disk.

(** ** Ids that a glob pattern takes literally *)

(** The id is not empty and holds none of [*], [?], [[], [/] and [\]: the
    pattern [*<id>*<ext>] is then one path component without [**], and the
    id matches itself only. *)
Definition plain_id (vid : pystr) : Prop :=
  vid <> [] /\ Forall (fun c => c ∉ [42; 63; 91; 47; 92]%N) vid.

#[global] Instance plain_id_dec vid : Decision (plain_id vid).
Proof. unfold plain_id. apply _. Defined.

(** The id the downloader reports with the captions is plain. *)
Definition captions_id_plain (w : World) (url : pystr) : Prop :=
  match yt_captions w url with
  | Some (vid, _) => plain_id vid
  | None => True
  end.

(** The id the downloader reports with the audio is plain, or a file named
    after the slug is there, so that no pattern is looked up. *)
Definition audio_id_plain (w : World) (url : pystr) : Prop :=
  match yt_audio w url with
  | Some (title, vid, files) =>
      Exists (fun ext => slug_file (translit w) title vid ext ∈ files.*1)
             audio_exts
      \/ plain_id vid
  | None => True
  end.

(** * Properties *)

(** ** Strings *)

Section StripFacts.
Variable p : N -> bool.

Lemma lstrip_by_suffix s :
  exists t, s = t ++ lstrip_by p s /\ Forall (fun c => p c = true) t.
Proof.
  induction s as [|c s IH]; simpl.
  - exists []. split; [reflexivity | constructor].
  - destruct (p c) eqn:Hc.
    + destruct IH as (t & Ht & Hall). exists (c :: t). split.
      * simpl. f_equal. exact Ht.
      * constructor; assumption.
    + exists []. split; [reflexivity | constructor].
Qed.

Lemma lstrip_by_head s c : head (lstrip_by p s) = Some c -> p c = false.
Proof.
  induction s as [|d s IH]; simpl; [discriminate |].
  destruct (p d) eqn:Hd; [exact IH |].
  simpl. intros [= <-]. exact Hd.
Qed.

Lemma rstrip_by_prefix s :
  exists t, s = rstrip_by p s ++ t /\ Forall (fun c => p c = true) t.
Proof.
  induction s as [|c s IH]; simpl.
  - exists []. split; [reflexivity | constructor].
  - destruct IH as (t & Ht & Hall).
    destruct (rstrip_by p s) as [|d r] eqn:Hr.
    + simpl in Ht. subst t. destruct (p c) eqn:Hc.
      * exists (c :: s). split; [reflexivity | constructor; assumption].
      * exists s. split; [reflexivity | assumption].
    + exists t. split; [| assumption]. simpl. f_equal. exact Ht.
Qed.

Lemma rstrip_by_last s c : last (rstrip_by p s) = Some c -> p c = false.
Proof.
  induction s as [|d s IH]; simpl; [discriminate |].
  destruct (rstrip_by p s) as [|e r] eqn:Hr.
  - destruct (p d) eqn:Hd; simpl; [discriminate |].
    intros [= <-]. exact Hd.
  - intros H. apply IH. exact H.
Qed.

Lemma lstrip_by_id s :
  (forall c, head s = Some c -> p c = false) -> lstrip_by p s = s.
Proof.
  destruct s as [|c s]; simpl; [reflexivity |].
  intros H. rewrite (H c eq_refl). reflexivity.
Qed.

Lemma rstrip_by_id s :
  (forall c, last s = Some c -> p c = false) -> rstrip_by p s = s.
Proof.
  induction s as [|c s IH]; simpl; [reflexivity |].
  intros H. destruct s as [|d s].
  - simpl. rewrite (H c eq_refl). reflexivity.
  - rewrite IH; [reflexivity |]. intros e He. apply H. exact He.
Qed.
End StripFacts.

Lemma Forall_of_app_l {A} (P : A -> Prop) (l t u : list A) :
  l = t ++ u -> Forall P l -> Forall P t.
Proof. intros ->. rewrite Forall_app. tauto. Qed.

Lemma Forall_of_app_r {A} (P : A -> Prop) (l t u : list A) :
  l = t ++ u -> Forall P l -> Forall P u.
Proof. intros ->. rewrite Forall_app. tauto. Qed.

Lemma lstrip_by_Forall p (P : N -> Prop) s :
  Forall P s -> Forall P (lstrip_by p s).
Proof.
  destruct (lstrip_by_suffix p s) as (t & Ht & _).
  apply (Forall_of_app_r P s t _ Ht).
Qed.

Lemma rstrip_by_Forall p (P : N -> Prop) s :
  Forall P s -> Forall P (rstrip_by p s).
Proof.
  destruct (rstrip_by_prefix p s) as (t & Ht & _).
  apply (Forall_of_app_l P s _ t Ht).
Qed.

Lemma strip_Forall (P : N -> Prop) s : Forall P s -> Forall P (strip s).
Proof. intros H. apply lstrip_by_Forall, rstrip_by_Forall, H. Qed.

Lemma rstrip_by_length p s : length (rstrip_by p s) <= length s.
Proof.
  destruct (rstrip_by_prefix p s) as (t & Ht & _).
  rewrite Ht at 2. rewrite length_app. lia.
Qed.

Lemma slice_to_Forall (P : N -> Prop) m s :
  Forall P s -> Forall P (slice_to m s).
Proof. unfold slice_to. destruct (0 <=? m)%Z; apply Forall_take. Qed.

Lemma slice_to_length m s :
  (0 <= m)%Z -> length (slice_to m s) <= Z.to_nat m.
Proof.
  intros Hm. unfold slice_to.
  destruct (0 <=? m)%Z eqn:E; [| lia].
  rewrite length_take. lia.
Qed.

(** ** Substitution of runs *)

Section Runs.
Variable cls : N -> bool.
Variable repl : pystr.

Lemma runs_concat s : concat (snd <$> runs cls s) = s.
Proof.
  induction s as [|c s IH]; simpl; [reflexivity |].
  destruct (runs cls s) as [|[b blk] rs] eqn:Hr.
  - simpl in IH. subst s. reflexivity.
  - destruct (Bool.eqb b (cls c)); simpl in *; rewrite <- IH; reflexivity.
Qed.

Lemma runs_blocks s :
  Forall (fun r => r.2 <> [] /\ Forall (fun c => cls c = r.1) r.2)
         (runs cls s).
Proof.
  induction s as [|c s IH]; simpl; [constructor |].
  destruct (runs cls s) as [|[b blk] rs] eqn:Hr.
  - constructor; [| constructor]. simpl. split; [discriminate |].
    constructor; [reflexivity | constructor].
  - inversion IH as [|? ? [Hne Hall] Hrest]; subst.
    destruct (Bool.eqb b (cls c)) eqn:Hb.
    + apply Bool.eqb_prop in Hb. constructor; [| exact Hrest].
      simpl in *. split; [discriminate |].
      constructor; [symmetry; exact Hb | exact Hall].
    + constructor; [| exact IH]. simpl. split; [discriminate |].
      constructor; [reflexivity | constructor].
Qed.

Lemma runs_alternating s : alternating (runs cls s).
Proof.
  induction s as [|c s IH]; simpl; [exact I |].
  destruct (runs cls s) as [|[b blk] rs] eqn:Hr; [exact I |].
  destruct (Bool.eqb b (cls c)) eqn:Hb.
  - simpl in *. exact IH.
  - split; [| exact IH]. simpl. intros Heq.
    rewrite Heq, Bool.eqb_reflx in Hb. discriminate.
Qed.

Lemma re_sub_runs s :
  re_sub_plus cls repl s = replace_runs cls repl s
  /\ re_sub_in cls repl s
     = concat (block_text repl <$> after_match (runs cls s)).
Proof.
  unfold replace_runs, block_text.
  induction s as [|c s [IHp IHi]]; simpl; [split; reflexivity |].
  rewrite IHp, IHi. clear IHp IHi.
  destruct (cls c) eqn:Hc;
    destruct (runs cls s) as [|[[] blk] rs]; simpl; split;
    rewrite ?app_nil_r; reflexivity.
Qed.

Lemma re_sub_plus_runs s : re_sub_plus cls repl s = replace_runs cls repl s.
Proof. apply re_sub_runs. Qed.

Lemma re_sub_Forall (Q : N -> Prop) s :
  Forall Q repl ->
  Forall (fun c => cls c = false -> Q c) s ->
  Forall Q (re_sub_plus cls repl s) /\ Forall Q (re_sub_in cls repl s).
Proof.
  intros Hrepl Hs.
  induction Hs as [|c s Hc Hs [IHp IHi]]; simpl; [split; constructor |].
  destruct (cls c) eqn:E.
  - split; [apply Forall_app; split |]; assumption.
  - split; constructor; auto.
Qed.
End Runs.

(** ** The slug namer *)

Lemma in_safe_class_seps c : c ∈ str "._- " -> in_safe_class c = true.
Proof.
  unfold str. simpl. rewrite !elem_of_cons, elem_of_nil.
  intros [-> | [-> | [-> | [-> | []]]]]; reflexivity.
Qed.

Lemma safe_name_by_runs tbl s maxlen :
  safe_name tbl s maxlen = slug_by_runs tbl s maxlen.
Proof.
  unfold safe_name, slug_by_runs. rewrite !re_sub_plus_runs. reflexivity.
Qed.

Lemma safe_name_in_class tbl s maxlen :
  Forall (fun c => in_safe_class c = true) (safe_name tbl s maxlen).
Proof.
  unfold safe_name, rstrip_chars.
  apply rstrip_by_Forall, slice_to_Forall, strip_Forall.
  apply re_sub_Forall.
  - repeat constructor.
  - eapply Forall_impl.
    + apply (re_sub_Forall SAFE (str "_") (fun c => in_safe_class c = true)).
      * repeat constructor.
      * apply Forall_forall. intros c _. unfold SAFE.
        destruct (in_safe_class c); [reflexivity | discriminate].
    + simpl. auto.
Qed.

Lemma safe_name_length tbl s maxlen :
  (0 <= maxlen)%Z -> length (safe_name tbl s maxlen) <= Z.to_nat maxlen.
Proof.
  intros Hm. unfold safe_name, rstrip_chars.
  etransitivity; [apply rstrip_by_length |]. apply slice_to_length, Hm.
Qed.

Lemma safe_name_last tbl s maxlen c :
  last (safe_name tbl s maxlen) = Some c -> c ∉ str "._- ".
Proof.
  unfold safe_name, rstrip_chars. intros H.
  apply rstrip_by_last in H. apply bool_decide_eq_false in H. exact H.
Qed.

(** C7 (as amended): for every input string and bound, [safe_name]
    transliterates, trims, replaces every maximal run of characters outside
    [A-Za-z0-9\-\._ ] by a single underscore (a run, not each character of
    it), collapses every run of whitespace to one space, trims, truncates to
    [maxlen] and strips the trailing characters among [._- ]; the result has
    only characters of the class, is at most [maxlen] long when [maxlen] is
    not negative, and does not end in a separator. *)
Theorem safe_name_spec (tbl : N -> pystr) (s : pystr) (maxlen : Z) :
  safe_name tbl s maxlen = slug_by_runs tbl s maxlen
  /\ Forall (fun c => in_safe_class c = true) (safe_name tbl s maxlen)
  /\ ((maxlen < 0)%Z \/ length (safe_name tbl s maxlen) <= Z.to_nat maxlen)
  /\ (forall c, last (safe_name tbl s maxlen) = Some c -> c ∉ str "._- ").
Proof.
  split; [apply safe_name_by_runs |].
  split; [apply safe_name_in_class |].
  split; [| apply safe_name_last].
  destruct (Z.ltb_spec maxlen 0) as [Hneg | Hpos]; [left; exact Hneg |].
  right. apply safe_name_length, Hpos.
Qed.

(** C7 (as stated) fails: in [a!!b] two characters are outside the class and
    the code writes one underscore for both, where one underscore for each
    would give [a__b]; and a leading tab is trimmed before the replacement,
    where the steps as listed would turn it into an underscore. *)
Lemma safe_name_not_per_character :
  safe_name no_table (str "a!!b") 80 = str "a_b"
  /\ slug_per_character no_table (str "a!!b") 80 = str "a__b"
  /\ safe_name no_table (9%N :: str "ab") 80 = str "ab"
  /\ slug_per_character no_table (9%N :: str "ab") 80 = str "_ab".
Proof. repeat split; vm_compute; reflexivity. Qed.

(** ** The per-video file name *)

Ltac char_bools :=
  repeat match goal with
  | H : _ = true |- _ =>
      first [ apply orb_true_iff in H | apply andb_true_iff in H
            | apply N.leb_le in H | apply N.eqb_eq in H
            | apply N.ltb_lt in H ]
  | H : _ \/ _ |- _ => destruct H
  | H : _ /\ _ |- _ => destruct H
  end.

Lemma is_alnum_ascii c : is_alnum c = true -> (c <? 128)%N = true.
Proof. unfold is_alnum. intros H. char_bools; apply N.ltb_lt; lia. Qed.

Lemma is_alnum_not_space c : is_alnum c = true -> isspace c = false.
Proof.
  unfold is_alnum. intros H. apply not_true_iff_false. unfold isspace.
  intros Hs. char_bools; lia.
Qed.

Lemma is_alnum_safe c : is_alnum c = true -> SAFE c = false.
Proof.
  unfold is_alnum, SAFE, in_safe_class. intros H.
  apply negb_false_iff.
  rewrite !orb_true_iff, !andb_true_iff, !N.leb_le, !N.eqb_eq.
  char_bools; lia.
Qed.

Lemma is_alnum_not_sep c :
  is_alnum c = true -> bool_decide (c ∈ str "._- ") = false.
Proof.
  unfold is_alnum. intros H. apply bool_decide_eq_false.
  unfold str. simpl. rewrite !elem_of_cons, elem_of_nil.
  intros Hs. char_bools; lia.
Qed.

Lemma unidecode_app tbl a b :
  unidecode tbl (a ++ b) = unidecode tbl a ++ unidecode tbl b.
Proof. unfold unidecode. apply bind_app. Qed.

Lemma unidecode_ascii tbl s :
  Forall (fun c => (c <? 128)%N = true) s -> unidecode tbl s = s.
Proof.
  unfold unidecode. induction 1 as [|c s Hc _ IH]; [reflexivity |].
  rewrite bind_cons, Hc, IH. reflexivity.
Qed.

Lemma rstrip_by_app_keep p t x :
  Forall (fun c => p c = false) t -> rstrip_by p (t ++ x) = t ++ rstrip_by p x.
Proof.
  induction 1 as [|c t Hc Ht IH]; [reflexivity |].
  simpl. rewrite IH. destruct (t ++ rstrip_by p x); [| reflexivity].
  rewrite Hc. reflexivity.
Qed.

Lemma lstrip_by_app_keep p c t x :
  p c = false -> lstrip_by p ((c :: t) ++ x) = (c :: t) ++ x.
Proof. intros Hc. simpl. rewrite Hc. reflexivity. Qed.

Lemma re_sub_plus_app_keep cls repl t x :
  Forall (fun c => cls c = false) t ->
  re_sub_plus cls repl (t ++ x) = t ++ re_sub_plus cls repl x.
Proof.
  induction 1 as [|c t Hc Ht IH]; [reflexivity |].
  simpl. rewrite Hc, IH. reflexivity.
Qed.

Lemma strip_app_keep t x :
  t <> [] -> Forall (fun c => isspace c = false) t ->
  strip (t ++ x) = t ++ rstrip_by isspace x.
Proof.
  intros Hne Ht. unfold strip. rewrite rstrip_by_app_keep by exact Ht.
  destruct t as [|c t]; [congruence |].
  apply lstrip_by_app_keep. inversion Ht; assumption.
Qed.

(** A title of 80 letters and digits or more fills the whole name: the
    bracketed id is cut off. *)
Lemma base_name_long_plain_title w title vid :
  Forall (fun c => is_alnum c = true) title ->
  80 <= length title ->
  base_name w title vid = take 80 title.
Proof.
  intros Hal Hlen. unfold base_name, safe_name.
  assert (Hne : title <> []) by (intros ->; simpl in Hlen; lia).
  assert (Hsp : Forall (fun c => isspace c = false) title)
    by (eapply Forall_impl; [exact Hal | apply is_alnum_not_space]).
  assert (Hsf : Forall (fun c => SAFE c = false) title)
    by (eapply Forall_impl; [exact Hal | apply is_alnum_safe]).
  assert (Hasc : Forall (fun c => (c <? 128)%N = true) title)
    by (eapply Forall_impl; [exact Hal | apply is_alnum_ascii]).
  rewrite unidecode_app, (unidecode_ascii _ title Hasc).
  rewrite (strip_app_keep title _ Hne Hsp).
  rewrite (re_sub_plus_app_keep SAFE _ title _ Hsf).
  rewrite (re_sub_plus_app_keep isspace _ title _ Hsp).
  rewrite (strip_app_keep title _ Hne Hsp).
  unfold slice_to. simpl (0 <=? 80)%Z. cbv iota.
  change (Z.to_nat 80) with 80.
  rewrite take_app_le by exact Hlen.
  unfold rstrip_chars. apply rstrip_by_id.
  intros c Hc. apply is_alnum_not_sep.
  apply last_Some_elem_of in Hc.
  assert (Ht : Forall (fun c => is_alnum c = true) (take 80 title))
    by (apply Forall_take; exact Hal).
  rewrite Forall_forall in Ht. apply Ht, Hc.
Qed.

(** C10: the name of the per-video file is the slug, cut at 80, of the one
    string [<title> [<id>]] followed by [.txt], so the id can be cut off
    whole: there are a title of 80 characters (or more) and two distinct,
    non-empty ids with the same per-video file name, which is then the first
    80 characters of the title followed by [.txt]. *)
Theorem per_txt_name_not_injective (w : World) :
  (forall title vid,
     per_txt_name w title vid
     = safe_name (translit w) (title ++ str " [" ++ vid ++ str "]") 80
       ++ str ".txt")
  /\ exists title vid1 vid2,
       80 <= length title /\ vid1 <> vid2 /\ vid1 <> [] /\ vid2 <> []
       /\ per_txt_name w title vid1 = per_txt_name w title vid2
       /\ per_txt_name w title vid1 = take 80 title ++ str ".txt".
Proof.
  split; [reflexivity |].
  exists (replicate 80 97%N), (str "abc"), (str "xyz").
  assert (Hal : Forall (fun c => is_alnum c = true) (replicate 80 97%N))
    by (apply Forall_replicate; reflexivity).
  assert (Hlen : 80 <= length (replicate 80 97%N))
    by (rewrite length_replicate; lia).
  split; [exact Hlen |].
  split; [discriminate |]. split; [discriminate |]. split; [discriminate |].
  unfold per_txt_name.
  rewrite !(base_name_long_plain_title w _ _ Hal Hlen). split; reflexivity.
Qed.

(** ** Trimmed texts *)

Lemma strip_trimmed s : trimmed (strip s).
Proof.
  unfold trimmed, strip. split.
  - apply lstrip_by_head.
  - intros c Hc.
    destruct (lstrip_by_suffix isspace (rstrip_by isspace s)) as (t & Ht & _).
    apply (rstrip_by_last isspace s). rewrite Ht, last_app, Hc. reflexivity.
Qed.

Lemma trimmed_strip s : trimmed s -> strip s = s.
Proof.
  intros [Hh Hl]. unfold strip.
  rewrite (rstrip_by_id isspace s Hl). apply lstrip_by_id, Hh.
Qed.

Lemma strip_idempotent s : strip (strip s) = strip s.
Proof. apply trimmed_strip, strip_trimmed. Qed.

Lemma trimmed_nil : trimmed [].
Proof. split; discriminate. Qed.

Lemma join_head sep x rest :
  x <> [] -> head (join sep (x :: rest)) = head x.
Proof.
  intros Hx. destruct x as [|c x]; [congruence |].
  destruct rest; reflexivity.
Qed.

Lemma join_last sep parts y :
  y <> [] -> last (join sep (parts ++ [y])) = last y.
Proof.
  intros Hy. induction parts as [|x parts IH]; [reflexivity |].
  change ((x :: parts) ++ [y]) with (x :: (parts ++ [y])).
  simpl. destruct (parts ++ [y]) as [|z zs] eqn:E.
  - destruct parts; discriminate.
  - rewrite !last_app, IH.
    destruct y as [|c y]; [congruence |].
    destruct (last (c :: y)) eqn:El; [reflexivity |].
    apply last_None in El. discriminate.
Qed.

Lemma join_trimmed parts :
  Forall (fun s => s <> [] /\ trimmed s) parts -> trimmed (join sp parts).
Proof.
  intros Hall. destruct parts as [|x rest]; [apply trimmed_nil |].
  split.
  - inversion Hall as [|? ? [Hx [Hh _]] _]; subst.
    rewrite join_head by exact Hx. exact Hh.
  - destruct (exists_last (l := x :: rest)) as (front & y & E);
      [discriminate |].
    rewrite E in *. apply Forall_app in Hall as [_ Hy].
    inversion Hy as [|? ? [Hne [_ Hl]] _]; subst.
    rewrite join_last by exact Hne. exact Hl.
Qed.

(** ** Caption normalisation *)

Lemma foldl_cue_line acc cues :
  foldl cue_line acc cues = acc ++ cue_lines cues.
Proof.
  revert acc. induction cues as [|cue cues IH]; intros acc; simpl.
  - unfold cue_lines. simpl. rewrite app_nil_r. reflexivity.
  - rewrite IH. unfold cue_line, cue_lines. fold (cue_text cue).
    rewrite fmap_cons, filter_cons.
    destruct (decide (cue_text cue <> [])) as [Hne | He].
    + rewrite bool_decide_eq_false_2 by exact Hne.
      rewrite <- app_assoc. reflexivity.
    + apply dec_stable in He. rewrite bool_decide_eq_true_2 by exact He.
      reflexivity.
Qed.

Lemma foldl_dedup_step out prev l :
  (foldl dedup_step (out, prev) l).1 = out ++ keep_changes prev l.
Proof.
  revert out prev. induction l as [|x l IH]; intros out prev; simpl.
  - rewrite app_nil_r. reflexivity.
  - rewrite IH. destruct (bool_decide (x = prev)); simpl.
    + reflexivity.
    + rewrite <- app_assoc. reflexivity.
Qed.

Lemma collapse_repeats_cons x l :
  collapse_repeats (x :: l) = x :: keep_changes x l.
Proof.
  revert x. induction l as [|y l IH]; intros x; [reflexivity |].
  change (collapse_repeats (x :: y :: l))
    with (if bool_decide (x = y) then collapse_repeats (y :: l)
          else x :: collapse_repeats (y :: l)).
  rewrite IH. simpl.
  destruct (decide (x = y)) as [-> | Hne].
  - rewrite !bool_decide_eq_true_2 by reflexivity. reflexivity.
  - rewrite !bool_decide_eq_false_2 by congruence. reflexivity.
Qed.

Lemma keep_changes_collapse prev l :
  head l <> Some prev -> keep_changes prev l = collapse_repeats l.
Proof.
  destruct l as [|x l]; [reflexivity |].
  intros Hh. rewrite collapse_repeats_cons. simpl.
  rewrite bool_decide_eq_false_2 by (intros ->; apply Hh; reflexivity).
  reflexivity.
Qed.

Lemma keep_changes_Forall (P : pystr -> Prop) prev l :
  Forall P l -> Forall P (keep_changes prev l).
Proof.
  intros H. revert prev. induction H as [|x l Hx _ IH]; intros prev; simpl.
  - constructor.
  - destruct (bool_decide (x = prev)); simpl; [apply IH |].
    constructor; [exact Hx | apply IH].
Qed.

Lemma collapse_repeats_Forall (P : pystr -> Prop) l :
  Forall P l -> Forall P (collapse_repeats l).
Proof.
  destruct 1 as [|x l Hx Hl]; [constructor |].
  rewrite collapse_repeats_cons.
  constructor; [exact Hx | apply keep_changes_Forall, Hl].
Qed.

Lemma collapse_repeats_no_adjacent l : no_adjacent_equal (collapse_repeats l).
Proof.
  induction l as [|x l IH]; [exact I |].
  destruct l as [|y l]; [exact I |].
  change (collapse_repeats (x :: y :: l))
    with (if bool_decide (x = y) then collapse_repeats (y :: l)
          else x :: collapse_repeats (y :: l)).
  destruct (decide (x = y)) as [-> | Hne].
  - rewrite bool_decide_eq_true_2 by reflexivity. exact IH.
  - rewrite bool_decide_eq_false_2 by exact Hne.
    rewrite collapse_repeats_cons in *. split; [exact Hne | exact IH].
Qed.

Lemma collapse_repeats_expand l :
  exists ns,
    length ns = length (collapse_repeats l)
    /\ Forall (fun n => 0 < n) ns
    /\ l = expand ns (collapse_repeats l).
Proof.
  induction l as [|x l IH].
  - exists []. repeat split. constructor.
  - destruct l as [|y l].
    + exists [1]. repeat split. repeat constructor.
    + destruct IH as (ns & Hlen & Hpos & Hexp).
      change (collapse_repeats (x :: y :: l))
        with (if bool_decide (x = y) then collapse_repeats (y :: l)
              else x :: collapse_repeats (y :: l)).
      rewrite collapse_repeats_cons in *.
      destruct ns as [|n ns]; [discriminate |].
      destruct (decide (x = y)) as [-> | Hne].
      * rewrite bool_decide_eq_true_2 by reflexivity.
        exists (S n :: ns). split; [exact Hlen |]. split.
        -- inversion Hpos; subst. constructor; [lia | assumption].
        -- unfold expand in *. simpl in *. f_equal. exact Hexp.
      * rewrite bool_decide_eq_false_2 by exact Hne.
        exists (1 :: n :: ns). split; [simpl in *; lia |]. split.
        -- constructor; [lia | exact Hpos].
        -- unfold expand in *. simpl in *. f_equal. exact Hexp.
Qed.

Lemma cue_lines_trimmed cues :
  Forall (fun s => s <> [] /\ trimmed s) (cue_lines cues).
Proof.
  unfold cue_lines. apply Forall_forall. intros s Hs.
  apply list_elem_of_filter in Hs as [Hne Hin].
  split; [exact Hne |].
  apply list_elem_of_fmap in Hin as (cue & -> & _). apply strip_trimmed.
Qed.

Lemma vtt_to_txt_collapse cues :
  vtt_to_txt cues = join sp (collapse_repeats (cue_lines cues)).
Proof.
  unfold vtt_to_txt. rewrite foldl_cue_line. simpl.
  pose proof (foldl_dedup_step [] [] (cue_lines cues)) as Hf.
  destruct (foldl dedup_step ([], []) (cue_lines cues)) as [out lst].
  simpl in Hf. subst out.
  pose proof (cue_lines_trimmed cues) as Htr.
  rewrite keep_changes_collapse.
  - apply trimmed_strip, join_trimmed, collapse_repeats_Forall, Htr.
  - destruct (cue_lines cues) as [|x l]; [discriminate |].
    inversion Htr as [|? ? [Hne _] _]; subst. simpl. congruence.
Qed.

(** C4: for every sequence of cues, [vtt_to_txt] takes the text of each cue
    with its newlines turned into spaces and trimmed, drops the empty ones,
    keeps one occurrence of every run of equal neighbours (the survivors have
    no two equal neighbours and give the lines back when each is repeated in
    place, so a text that comes back later is kept) and joins the survivors
    with one space; the cues [hi there], [hi there], [ok], [hi there] give
    [hi there ok hi there]. *)
Theorem vtt_to_txt_spec (cues : list pystr) :
  vtt_to_txt cues = join sp (collapse_repeats (cue_lines cues))
  /\ no_adjacent_equal (collapse_repeats (cue_lines cues))
  /\ (exists ns,
        length ns = length (collapse_repeats (cue_lines cues))
        /\ Forall (fun n => 0 < n) ns
        /\ cue_lines cues = expand ns (collapse_repeats (cue_lines cues)))
  /\ vtt_to_txt [str "hi there"; str "hi there"; str "ok"; str "hi there"]
     = str "hi there ok hi there".
Proof.
  split; [apply vtt_to_txt_collapse |].
  split; [apply collapse_repeats_no_adjacent |].
  split; [apply collapse_repeats_expand |].
  vm_compute. reflexivity.
Qed.

(** ** Loops that neither raise nor touch the state *)

Lemma for_each_pure {A B} (body : A -> B -> M A) (f : A -> B -> A) xs :
  (forall acc x st, body acc x st = (Ok (f acc x), st)) ->
  forall acc st, for_each body acc xs st = (Ok (foldl f acc xs), st).
Proof.
  intros Hbody. induction xs as [|x xs IH]; intros acc st; simpl.
  - reflexivity.
  - unfold bind. rewrite Hbody. apply IH.
Qed.

(** ** The ledger loader *)

Lemma manifest_line_run w seen line st :
  manifest_line w seen line st = (Ok (add_line w seen line), st).
Proof.
  unfold manifest_line, add_line, line_key, try_except, bind, lift, ret.
  destruct (json_loads w line) as [[| | | | |kvs]|e]; try reflexivity.
  destruct (truthy (dict_get (str "id") kvs)); [| reflexivity].
  destruct (hash_key (dict_get (str "id") kvs)); reflexivity.
Qed.

Lemma read_manifest_ids_run w st :
  read_manifest_ids w st
  = (Ok (foldl (add_line w) ∅ (ledger_lines st)), st).
Proof.
  unfold read_manifest_ids, ledger_lines, bind, get.
  destruct (manifest st) as [text|]; [| reflexivity].
  apply for_each_pure, manifest_line_run.
Qed.

Lemma line_key_gives_id w line k :
  line_key w line = Some k <-> gives_id w line k.
Proof.
  unfold line_key, gives_id. split.
  - destruct (json_loads w line) as [[| | | | |kvs]|e]; try discriminate.
    destruct (truthy (dict_get (str "id") kvs)) eqn:Ht; [| discriminate].
    destruct (hash_key (dict_get (str "id") kvs)) eqn:Hh; [| discriminate].
    intros [= <-]. exists kvs. auto.
  - intros (kvs & -> & -> & ->). reflexivity.
Qed.

Lemma elem_of_foldl_add_line w lines acc k :
  k ∈ foldl (add_line w) acc lines
  <-> k ∈ acc \/ exists line, line ∈ lines /\ gives_id w line k.
Proof.
  revert acc. induction lines as [|line lines IH]; intros acc; simpl.
  - split; [auto |]. intros [H | (l & Hl & _)]; [exact H |].
    apply elem_of_nil in Hl. contradiction.
  - rewrite IH. unfold add_line at 1. split.
    + intros [Hacc | (l & Hl & Hg)].
      * destruct (line_key w line) as [k'|] eqn:Hk; [| auto].
        apply elem_of_union in Hacc as [Hk' | Hacc]; [| auto].
        apply elem_of_singleton in Hk'. subst k'.
        right. exists line. split; [left |]. apply line_key_gives_id, Hk.
      * right. exists l. split; [right; exact Hl | exact Hg].
    + intros [Hacc | (l & Hl & Hg)].
      * left. destruct (line_key w line); [| exact Hacc].
        apply elem_of_union. auto.
      * apply elem_of_cons in Hl as [-> | Hl].
        -- left. apply line_key_gives_id in Hg. rewrite Hg.
           apply elem_of_union. left. apply elem_of_singleton. reflexivity.
        -- right. exists l. auto.
Qed.

Lemma malformed_gives_no_id w line k : malformed w line -> ~ gives_id w line k.
Proof.
  intros [(e & He) | [(v & Hv & Hn) | (kvs & Hk & Ht)]] (kvs' & Hl & Htr & _).
  - congruence.
  - rewrite Hv in Hl. injection Hl as ->. apply (Hn kvs'). reflexivity.
  - rewrite Hk in Hl. injection Hl as ->. congruence.
Qed.

Lemma valid_line_gives_id w line vid k :
  valid_line w line vid -> gives_id w line k <-> k = KStr vid.
Proof.
  intros (kvs & Hl & Hid & Hne). unfold gives_id. split.
  - intros (kvs' & Hl' & _ & Hh). rewrite Hl in Hl'. injection Hl' as <-.
    rewrite Hid in Hh. simpl in Hh. congruence.
  - intros ->. exists kvs. rewrite Hid. simpl.
    rewrite bool_decide_eq_false_2 by exact Hne. auto.
Qed.

Lemma malformed_skipped w seen line st :
  malformed w line -> manifest_line w seen line st = (Ok seen, st).
Proof.
  intros Hm. rewrite manifest_line_run. unfold add_line.
  destruct (line_key w line) as [k|] eqn:Hk; [| reflexivity].
  apply line_key_gives_id in Hk. destruct (malformed_gives_no_id _ _ _ Hm Hk).
Qed.

Lemma Forall2_valid_ids w lines vids k :
  Forall2 (valid_line w) lines vids ->
  (exists line, line ∈ lines /\ gives_id w line k)
  <-> k ∈ (KStr <$> vids).
Proof.
  induction 1 as [|line vid lines vids Hv _ IH].
  - split; [intros (l & Hl & _); apply elem_of_nil in Hl; contradiction |].
    intros H. apply elem_of_nil in H. contradiction.
  - rewrite fmap_cons, elem_of_cons, <- IH. split.
    + intros (l & Hl & Hg). apply elem_of_cons in Hl as [-> | Hl].
      * left. apply (valid_line_gives_id _ _ _ _ Hv), Hg.
      * right. exists l. auto.
    + intros [-> | (l & Hl & Hg)].
      * exists line. split; [left |].
        apply (valid_line_gives_id _ _ _ _ Hv). reflexivity.
      * exists l. split; [right; exact Hl | exact Hg].
Qed.

(** The loop of the loader, on the text of a ledger that text mode has read:
    it returns and does not raise, whatever the lines hold; the set it
    returns is that of the ids of the lines that parse to a record with an
    id, so that a line that fails to parse, parses to something else than a
    record, or lacks an id adds nothing; and a ledger whose lines are one
    malformed line among N valid lines with N distinct ids loads to exactly
    those N ids. *)
Lemma read_manifest_ids_tolerant (w : World) (st : State) :
  exists ids,
    read_manifest_ids w st = (Ok ids, st)
    /\ (forall k,
          k ∈ ids
          <-> exists line, line ∈ ledger_lines st /\ gives_id w line k)
    /\ (forall seen line,
          malformed w line -> manifest_line w seen line st = (Ok seen, st))
    /\ (forall before bad after vids,
          ledger_lines st = before ++ [bad] ++ after ->
          malformed w bad ->
          Forall2 (valid_line w) (before ++ after) vids ->
          NoDup vids ->
          ids = list_to_set (KStr <$> vids) /\ size ids = length vids).
Proof.
  exists (foldl (add_line w) ∅ (ledger_lines st)).
  split; [apply read_manifest_ids_run |].
  assert (Hmem : forall k,
    k ∈ foldl (add_line w) ∅ (ledger_lines st)
    <-> exists line, line ∈ ledger_lines st /\ gives_id w line k).
  { intros k. rewrite elem_of_foldl_add_line. split; [| auto].
    intros [H | H]; [| exact H]. apply not_elem_of_empty in H. contradiction. }
  split; [exact Hmem |].
  split; [intros seen line; apply malformed_skipped |].
  intros before bad after vids Hlines Hbad Hvalid Hnodup.
  assert (Heq : foldl (add_line w) ∅ (ledger_lines st)
                = list_to_set (KStr <$> vids)).
  { apply set_eq. intros k. rewrite Hmem, elem_of_list_to_set.
    rewrite <- (Forall2_valid_ids w _ _ k Hvalid), Hlines. split.
    - intros (l & Hl & Hg). exists l. split; [| exact Hg].
      rewrite !elem_of_app in Hl. rewrite elem_of_app.
      destruct Hl as [Hl | [Hl | Hl]]; [auto | | auto].
      apply list_elem_of_singleton in Hl. subst l.
      destruct (malformed_gives_no_id _ _ _ Hbad Hg).
    - intros (l & Hl & Hg). exists l. split; [| exact Hg].
      rewrite !elem_of_app. apply elem_of_app in Hl as [Hl | Hl]; auto. }
  split; [exact Heq |].
  rewrite Heq, size_list_to_set, length_fmap; [reflexivity |].
  apply NoDup_fmap_2; [| exact Hnodup]. intros a b [= ->]. reflexivity.
Qed.

(** ** The escalation chain *)

Lemma add_trace_nil st : add_trace st [] = st.
Proof. destruct st. unfold add_trace. simpl. rewrite app_nil_r. reflexivity. Qed.

Lemma add_trace_app st evs evs' :
  add_trace (add_trace st evs) evs' = add_trace st (evs ++ evs').
Proof. unfold add_trace. simpl. rewrite app_assoc. reflexivity. Qed.

Lemma emit_run ev st : emit ev st = (Ok tt, add_trace st [ev]).
Proof. reflexivity. Qed.

Lemma try_download_subs_run w url st :
  try_download_subs w url st = (Ok (tier1 w url), add_trace st [FetchCaptions url]).
Proof.
  unfold try_download_subs, tier1, bind, try_except, lift, ret.
  unfold caption_file. rewrite emit_run.
  destruct (yt_captions w url) as [[vid files]|]; [| reflexivity].
  destruct (largest vtt_size _) as [vtt|]; [| reflexivity].
  destruct (vtt_cues vtt); reflexivity.
Qed.

Lemma download_audio_run w url st :
  download_audio w url st = (Ok (audio_of w url), add_trace st [FetchAudio url]).
Proof.
  unfold download_audio, audio_of, bind, ret. rewrite emit_run.
  destruct (yt_audio w url) as [[[title vid] files]|]; reflexivity.
Qed.

(** The engine behind its [try]: the result is the Tier-3 text, also when the
    engine raises. *)
Lemma whisper_guarded_run w a st :
  try_except (whisper_transcribe w a) (fun _ => ret []) st
  = (Ok (tier3 w a), add_trace st [Transcribe a]).
Proof.
  unfold try_except, whisper_transcribe, tier3, bind, lift, ret.
  rewrite emit_run. destruct (engine w a); reflexivity.
Qed.

Lemma unlink_guarded_run w a st :
  try_except (run emit (Unlink a); lift (unlink w a)) (fun _ => ret tt) st
  = (Ok tt, add_trace st [Unlink a]).
Proof.
  unfold try_except, bind, lift, ret. rewrite emit_run.
  destruct (unlink w a) as [[]|]; reflexivity.
Qed.

Lemma default_falsy (t : option pystr) :
  (if falsy t then [] else default [] t) = default [] t.
Proof. destruct t as [[|c t]|]; reflexivity. Qed.

Lemma acquire_run args w url st :
  acquire args w url st
  = (Ok (acquire_text args w url), add_trace st (acquire_events args w url)).
Proof.
  unfold acquire, acquire_text, acquire_events, escalates.
  unfold bind at 1. rewrite try_download_subs_run.
  destruct ((falsy (tier1 w url)
             || bool_decide (length (default [] (tier1 w url)) < 50))
            && negb (skip_whisper args)) eqn:Hesc.
  - unfold bind at 1. unfold bind at 1. rewrite download_audio_run.
    destruct (audio_of w url) as [a|].
    + unfold bind at 1. rewrite whisper_guarded_run.
      unfold bind at 1. rewrite unlink_guarded_run.
      unfold ret. rewrite !add_trace_app. simpl.
      destruct (tier3 w a); reflexivity.
    + unfold bind, ret. rewrite !add_trace_app, default_falsy. reflexivity.
  - unfold bind, ret. rewrite default_falsy. reflexivity.
Qed.

Lemma too_short_iff (t1 : option pystr) :
  too_short t1
  <-> falsy t1 || bool_decide (length (default [] t1) < 50) = true.
Proof.
  unfold too_short. rewrite orb_true_iff, bool_decide_eq_true. split.
  - intros [-> | [-> | (t & -> & Hlen)]]; [left | left | right]; auto.
  - intros [Hf | Hlen].
    + destruct t1 as [[|c t]|]; [auto | discriminate | auto].
    + destruct t1 as [t|]; [| auto]. right. right. exists t. auto.
Qed.

Lemma escalates_iff args w url :
  escalates args w url = true
  <-> too_short (tier1 w url) /\ skip_whisper args = false.
Proof.
  unfold escalates. rewrite andb_true_iff, negb_true_iff, too_short_iff.
  reflexivity.
Qed.

(** C2: for every video, the run goes on from the captions to the audio
    download exactly when the Tier-1 result is empty or shorter than 50
    characters and the speech fallback is not disabled; otherwise the Tier-1
    result is final and nothing is asked after the captions. A Tier-1 result
    of length 49 escalates, one of length 50 is final with no audio download
    and no transcription. *)
Theorem quality_gate (args : Args) (w : World) (url : pystr) (st : State) :
  try_download_subs w url st
  = (Ok (tier1 w url), add_trace st [FetchCaptions url])
  /\ exists txt evs,
       acquire args w url st
       = (Ok txt, add_trace st (FetchCaptions url :: evs))
       /\ (FetchAudio url ∈ evs
           <-> too_short (tier1 w url) /\ skip_whisper args = false)
       /\ (FetchAudio url ∉ evs -> evs = [] /\ txt = default [] (tier1 w url))
       /\ (forall t, tier1 w url = Some t -> length t = 49 ->
                     skip_whisper args = false -> FetchAudio url ∈ evs)
       /\ (forall t, tier1 w url = Some t -> length t = 50 ->
                     evs = [] /\ txt = t).
Proof.
  split; [apply try_download_subs_run |].
  exists (acquire_text args w url), (tail (acquire_events args w url)).
  split; [apply acquire_run |].
  unfold acquire_text, acquire_events. simpl tail.
  destruct (escalates args w url) eqn:Hesc.
  - pose proof (proj1 (escalates_iff args w url) Hesc) as Hcond.
    split; [split; [intros _; exact Hcond | intros _; left] |].
    split; [intros Hno; exfalso; apply Hno; left |].
    split; [intros; left |].
    intros t Ht Hlen. destruct Hcond as [[Hs | [Hs | (t' & Hs & Hl)]] _];
      rewrite Ht in Hs; try discriminate.
    + injection Hs as ->. simpl in Hlen. lia.
    + injection Hs as ->. lia.
  - assert (Hcond : ~ (too_short (tier1 w url) /\ skip_whisper args = false)).
    { rewrite <- escalates_iff, Hesc. discriminate. }
    split; [split; [intros H; apply elem_of_nil in H; contradiction |
                    intros H; destruct (Hcond H)] |].
    split; [auto |].
    split.
    + intros t Ht Hlen Hsk. exfalso. apply Hcond. split; [| exact Hsk].
      right. right. exists t. split; [exact Ht | lia].
    + intros t Ht _. rewrite Ht. auto.
Qed.

(** ** One turn of the loop *)

Lemma txt_present_iff st name :
  txt_present st name = true
  <-> exists content,
        txt_files st !! name = Some content /\ 32 < utf8_size content.
Proof.
  unfold txt_present. destruct (txt_files st !! name) as [c|].
  - rewrite bool_decide_eq_true. split.
    + intros H. exists c. auto.
    + intros (c' & [= <-] & H). exact H.
  - split; [discriminate | intros (c & Hc & _); discriminate].
Qed.

Lemma skip_test_iff args w seen st e :
  negb (force args)
  && (bool_decide (KStr (e_id e) ∈ seen)
      || txt_present st (per_txt_name w (e_title e) (e_id e))) = true
  <-> force args = false /\ already_done w seen st e.
Proof.
  unfold already_done.
  rewrite andb_true_iff, negb_true_iff, orb_true_iff, bool_decide_eq_true,
    txt_present_iff.
  reflexivity.
Qed.

Lemma pass_test_iff e :
  bool_decide (e_url e = []) || bool_decide (e_id e = []) = false
  <-> has_url_and_id e.
Proof.
  unfold has_url_and_id.
  rewrite orb_false_iff, !bool_decide_eq_false. reflexivity.
Qed.

Lemma seen_add_known (k : Key) (seen : gset Key) :
  k ∈ seen -> {[k]} ∪ seen = seen.
Proof.
  intros H. apply set_eq. intros x.
  rewrite elem_of_union, elem_of_singleton.
  split; [intros [-> | Hx]; assumption | auto].
Qed.

Lemma process_entry_run args w txt_dir acc e st :
  process_entry args w txt_dir acc e st
  = (Ok (step args w txt_dir (acc, st) e).1,
     (step args w txt_dir (acc, st) e).2).
Proof.
  destruct acc as [seen parts]. unfold process_entry, step.
  destruct (decide (has_url_and_id e)) as [Hv | Hv].
  - rewrite (proj2 (pass_test_iff e) Hv).
    unfold bind at 1, get.
    destruct (decide (force args = false /\ already_done w seen st e))
      as [Hs | Hs].
    + rewrite (proj2 (skip_test_iff args w seen st e) Hs).
      unfold skipped_state, existing_text. rewrite bool_decide_not.
      destruct (bool_decide (KStr (e_id e) ∈ seen)) eqn:Hin.
      * apply bool_decide_eq_true in Hin.
        rewrite (seen_add_known _ _ Hin). reflexivity.
      * reflexivity.
    + destruct (negb (force args)
                && (bool_decide (KStr (e_id e) ∈ seen)
                    || txt_present st (per_txt_name w (e_title e) (e_id e))))
        eqn:Ht.
      * apply skip_test_iff in Ht. contradiction.
      * unfold bind at 1. rewrite acquire_run. reflexivity.
  - destruct (bool_decide (e_url e = []) || bool_decide (e_id e = []))
      eqn:Hp; [reflexivity |].
    apply pass_test_iff in Hp. contradiction.
Qed.

Lemma for_each_steps {A B} (body : A -> B -> M A)
    (f : A * State -> B -> A * State) xs :
  (forall acc x st, body acc x st = (Ok (f (acc, st) x).1, (f (acc, st) x).2)) ->
  forall acc st,
    for_each body acc xs st
    = (Ok (foldl f (acc, st) xs).1, (foldl f (acc, st) xs).2).
Proof.
  intros Hbody. induction xs as [|x xs IH]; intros acc st; simpl.
  - reflexivity.
  - unfold bind. rewrite Hbody, IH.
    destruct (f (acc, st) x) as [acc' st']. reflexivity.
Qed.

Lemma loop_run args w txt_dir acc entries st :
  for_each (process_entry args w txt_dir) acc entries st
  = (Ok (foldl (step args w txt_dir) (acc, st) entries).1,
     (foldl (step args w txt_dir) (acc, st) entries).2).
Proof. apply for_each_steps. intros. apply process_entry_run. Qed.



(** ** The whole run *)


Lemma main_incremental_run args w txt_dir entries st :
  rebuild_combined args = false ->
  enumerated args entries <> [] ->
  main args w txt_dir entries st
  = let '((_, parts), st1) := after_loop args w txt_dir entries st in
    (Ok tt,
     mkState (txt_files st1) (manifest st1)
       (Some (match combined st1 with
              | Some prev => prev ++ separator prev ++ join nl parts
              | None => join nl parts
              end))
       (trace st1)).
Proof.
  intros Hreb Hne. unfold main, after_loop. fold (enumerated args entries).
  rewrite Hreb, bool_decide_eq_false_2 by exact Hne. simpl.
  unfold bind at 1. rewrite read_manifest_ids_run. fold (loaded_ids w st).
  unfold bind at 1. rewrite loop_run.
  destruct (foldl (step args w txt_dir) (loaded_ids w st, [], st)
                  (enumerated args entries)) as [[seen parts] st1].
  simpl. unfold bind, get, write_combined, separator.
  destruct (combined st1); reflexivity.
Qed.

Lemma main_empty_run args w txt_dir entries st :
  rebuild_combined args = false ->
  enumerated args entries = [] ->
  main args w txt_dir entries st = (Ok tt, st).
Proof.
  intros Hreb He. unfold main. fold (enumerated args entries).
  rewrite Hreb, bool_decide_eq_true_2 by exact He. reflexivity.
Qed.








Lemma utf8_encode_prefix s t :
  s `prefix_of` t -> utf8_encode s `prefix_of` utf8_encode t.
Proof.
  intros [k ->]. exists (utf8_encode k). unfold utf8_encode. apply bind_app.
Qed.

Lemma whisper_transcribe_raises w a ex st :
  engine w a = Raised ex ->
  whisper_transcribe w a st = (Raised ex, add_trace st [Transcribe a]).
Proof.
  intros He. unfold whisper_transcribe, bind, lift. rewrite emit_run, He.
  reflexivity.
Qed.


Lemma step_acquired args w txt_dir seen parts e st :
  has_url_and_id e ->
  force args = true \/ ~ already_done w seen st e ->
  step args w txt_dir ((seen, parts), st) e
  = (({[KStr (e_id e)]} ∪ seen,
      parts ++ [entry_fragment e (acquire_text args w (e_url e))]),
     acquired_state args w txt_dir st e).
Proof.
  intros Hv Hns. unfold step.
  destruct (decide (has_url_and_id e)); [| contradiction].
  destruct (decide (force args = false /\ already_done w seen st e))
    as [[Hf Hd] | _]; [| reflexivity].
  destruct Hns as [Hf' | Hnd]; [congruence | contradiction].
Qed.


(** ** Runs over videos that are done already *)








(** ** The properties on the small world *)

(** The quality gate at its boundary: a caption text of 49 letters makes the
    run fetch the audio, one of 50 letters is final and nothing more is
    asked. *)
Lemma quality_gate_boundary_demo :
  (exists txt evs,
     acquire Demo.plain (Demo.captioned 49) Demo.url_a Demo.fresh
     = (Ok txt, add_trace Demo.fresh (FetchCaptions Demo.url_a :: evs))
     /\ FetchAudio Demo.url_a ∈ evs)
  /\ acquire Demo.plain (Demo.captioned 50) Demo.url_a Demo.fresh
     = (Ok (replicate 50 97%N),
        add_trace Demo.fresh [FetchCaptions Demo.url_a]).
Proof.
  split.
  - destruct (quality_gate Demo.plain (Demo.captioned 49) Demo.url_a
                Demo.fresh) as (_ & txt & evs & Hrun & _ & _ & H49 & _).
    exists txt, evs. split; [exact Hrun |].
    apply (H49 (replicate 49 97%N)); reflexivity.
  - destruct (quality_gate Demo.plain (Demo.captioned 50) Demo.url_a
                Demo.fresh) as (_ & txt & evs & Hrun & _ & _ & _ & H50).
    destruct (H50 (replicate 50 97%N)) as [-> ->]; [reflexivity .. |].
    exact Hrun.
Defined.




(** A ledger with a torn line between two records loads to the two ids. *)
Lemma ledger_tolerance_demo :
  exists ids,
    read_manifest_ids Demo.world Demo.torn = (Ok ids, Demo.torn)
    /\ ids = list_to_set [KStr (str "aaa"); KStr (str "bbb")]
    /\ size ids = 2.
Proof.
  destruct (read_manifest_ids_tolerant Demo.world Demo.torn)
    as (ids & Hrun & _ & _ & Hn).
  exists ids. split; [exact Hrun |].
  apply (Hn [Demo.line_a] Demo.torn_line [Demo.line_b]
            [str "aaa"; str "bbb"]).
  - vm_compute. reflexivity.
  - left. eexists. vm_compute. reflexivity.
  - repeat constructor; eexists;
      (split; [vm_compute; reflexivity |]);
      (split; [vm_compute; reflexivity | discriminate]).
  - apply (bool_decide_unpack _). vm_compute. exact I.
Defined.

(** ** The ledger across runs *)

Lemma readlines_from_line cur a rest :
  10%N ∉ a ->
  readlines_from cur (a ++ 10%N :: rest)
  = (cur ++ a ++ [10%N]) :: readlines_from [] rest.
Proof.
  revert cur. induction a as [|c a IH]; intros cur Ha; simpl.
  - reflexivity.
  - apply not_elem_of_cons in Ha as [Hc Ha].
    destruct (N.eqb_spec c 10) as [-> | _]; [congruence |].
    rewrite IH by exact Ha. rewrite <- app_assoc. reflexivity.
Qed.

Lemma readlines_from_app cur s t :
  last s = Some 10%N ->
  readlines_from cur (s ++ t) = readlines_from cur s ++ readlines_from [] t.
Proof.
  revert cur. induction s as [|c s IH]; intros cur Hl; [discriminate |].
  simpl. destruct s as [|d s].
  - simpl in Hl. injection Hl as ->. reflexivity.
  - assert (Hl' : last (d :: s) = Some 10%N) by exact Hl.
    destruct (c =? 10)%N; rewrite (IH _ Hl'); reflexivity.
Qed.

Lemma readlines_append text line :
  text = [] \/ last text = Some 10%N ->
  10%N ∉ line ->
  readlines (text ++ line ++ nl) = readlines text ++ [line ++ nl].
Proof.
  intros Hc Hline. unfold readlines, nl.
  assert (Hone : readlines_from [] (line ++ [10%N]) = [line ++ [10%N]])
    by (rewrite readlines_from_line by exact Hline; reflexivity).
  destruct Hc as [-> | Hl].
  - exact Hone.
  - rewrite readlines_from_app by exact Hl. rewrite Hone. reflexivity.
Qed.

Lemma ledger_plus_keys w txt_dir st e st' :
  ledger_closed st ->
  reads_back w txt_dir e ->
  manifest st' = ledger_plus w (manifest st) (entry_record w txt_dir e) ->
  ledger_keys w st' = ledger_keys w st ++ [KStr (e_id e)]
  /\ ledger_closed st'.
Proof.
  intros Hc [Hnl Hback] Hm. unfold ledger_keys, ledger_lines, ledger_closed.
  rewrite Hm. unfold ledger_plus. simpl. split.
  - rewrite readlines_append by assumption.
    rewrite omap_app. simpl. rewrite Hback.
    destruct (manifest st); reflexivity.
  - right. rewrite app_assoc. unfold nl. apply last_snoc.
Qed.

Lemma step_ledger_inv args w txt_dir x e :
  force args = false ->
  (has_url_and_id e -> reads_back w txt_dir e) ->
  ledger_inv w x -> ledger_inv w (step args w txt_dir x e).
Proof.
  intros Hforce Hback. destruct x as [[seen parts] st].
  intros (Hc & Hnd & Hsub). unfold step. simpl in *.
  destruct (decide (has_url_and_id e)) as [Hv | _];
    [| split; [| split]; assumption].
  assert (Hgrow : forall st',
    manifest st' = ledger_plus w (manifest st) (entry_record w txt_dir e) ->
    KStr (e_id e) ∉ seen ->
    ledger_inv w (({[KStr (e_id e)]} ∪ seen, parts), st')).
  { intros st' Hm Hfresh.
    destruct (ledger_plus_keys w txt_dir st e st' Hc (Hback Hv) Hm)
      as [Hkeys Hc'].
    split; [exact Hc' |]. simpl. rewrite Hkeys. split.
    - apply NoDup_app. split; [exact Hnd |]. split; [| apply NoDup_singleton].
      intros k Hk Hk'. apply list_elem_of_singleton in Hk'. subst k.
      apply Hfresh, Hsub, Hk.
    - intros k Hk. apply elem_of_app in Hk as [Hk | Hk].
      + apply elem_of_union. right. apply Hsub, Hk.
      + apply list_elem_of_singleton in Hk. subst k.
        apply elem_of_union. left. apply elem_of_singleton. reflexivity. }
  destruct (decide (force args = false /\ already_done w seen st e))
    as [_ | Hnot].
  - unfold skipped_state.
    destruct (decide (KStr (e_id e) ∈ seen)) as [Hin | Hfresh].
    + rewrite bool_decide_eq_true_2 by exact Hin.
      split; [exact Hc |]. split; [exact Hnd |]. simpl.
      intros k Hk. apply elem_of_union. right. apply Hsub, Hk.
    + rewrite bool_decide_eq_false_2 by exact Hfresh.
      destruct (Hgrow (mkState (txt_files st)
                         (ledger_plus w (manifest st)
                            (entry_record w txt_dir e))
                         (combined st) (trace st)) eq_refl Hfresh)
        as (H1 & H2 & H3).
      split; [exact H1 |]. split; [exact H2 | exact H3].
  - assert (Hfresh : KStr (e_id e) ∉ seen).
    { intros Hin. apply Hnot. split; [exact Hforce | left; exact Hin]. }
    destruct (Hgrow (acquired_state args w txt_dir st e) eq_refl Hfresh)
      as (H1 & H2 & H3).
    split; [exact H1 |]. split; [exact H2 | exact H3].
Qed.

Lemma loop_ledger_inv args w txt_dir es x :
  force args = false ->
  Forall (fun e => has_url_and_id e -> reads_back w txt_dir e) es ->
  ledger_inv w x -> ledger_inv w (foldl (step args w txt_dir) x es).
Proof.
  intros Hforce Hes. revert x.
  induction Hes as [|e es He _ IH]; intros x Hx; cbn [foldl]; [exact Hx |].
  apply IH, step_ledger_inv; assumption.
Qed.

Lemma loaded_ids_keys w st k : k ∈ ledger_keys w st -> k ∈ loaded_ids w st.
Proof.
  unfold ledger_keys, loaded_ids. rewrite elem_of_foldl_add_line.
  intros Hk. apply list_elem_of_omap in Hk as (line & Hl & Hkey).
  right. exists line. split; [exact Hl | apply line_key_gives_id, Hkey].
Qed.

(** Without the force option a run keeps the ids of the ledger distinct:
    the skip path appends a record only for an id that is not in the set,
    and the other path is reached only for such an id. *)
Lemma ledger_unique_without_force args w txt_dir entries st :
  force args = false ->
  Forall (fun e => has_url_and_id e -> reads_back w txt_dir e)
         (enumerated args entries) ->
  ledger_closed st ->
  NoDup (ledger_keys w st) ->
  exists st',
    main args w txt_dir entries st = (Ok tt, st')
    /\ NoDup (ledger_keys w st')
    /\ ledger_closed st'.
Proof.
  intros Hforce Hback Hc Hnd.
  destruct (rebuild_combined args) eqn:Hreb.
  - unfold main. rewrite Hreb, andb_false_r.
    unfold rebuild_combined_from_txt, bind, get, write_combined.
    eexists. split; [reflexivity |]. split; assumption.
  - destruct (decide (enumerated args entries = [])) as [He | Hne].
    + exists st. split; [apply main_empty_run; assumption |].
      split; assumption.
    + rewrite main_incremental_run by assumption. unfold after_loop.
      assert (Hinv : ledger_inv w
                (foldl (step args w txt_dir) ((loaded_ids w st, []), st)
                       (enumerated args entries))).
      { apply loop_ledger_inv; [exact Hforce | exact Hback |].
        split; [exact Hc |]. split; [exact Hnd |]. apply loaded_ids_keys. }
      destruct (foldl (step args w txt_dir) ((loaded_ids w st, []), st)
                      (enumerated args entries)) as [[seen parts] st1].
      destruct Hinv as (Hc1 & Hnd1 & _). simpl in Hc1, Hnd1.
      eexists. split; [reflexivity |]. split; assumption.
Qed.

Lemma step_manifest_prefix args w txt_dir x e :
  default [] (manifest x.2)
  `prefix_of` default [] (manifest (step args w txt_dir x e).2).
Proof.
  destruct x as [[seen parts] st]. unfold step.
  destruct (decide (has_url_and_id e)); [| reflexivity].
  destruct (decide (force args = false /\ already_done w seen st e)); simpl.
  - unfold skipped_state. destruct (bool_decide _); [reflexivity |].
    simpl. eexists. reflexivity.
  - eexists. reflexivity.
Qed.

Lemma loop_manifest_prefix args w txt_dir es x :
  default [] (manifest x.2)
  `prefix_of` default [] (manifest (foldl (step args w txt_dir) x es).2).
Proof.
  revert x. induction es as [|e es IH]; intros x; cbn [foldl]; [reflexivity |].
  etransitivity; [apply step_manifest_prefix | apply IH].
Qed.

(** No run rewrites the ledger: what it held is a prefix of what it holds
    afterwards, with the force option as without it. *)
Lemma ledger_append_only args w txt_dir entries st :
  exists st',
    main args w txt_dir entries st = (Ok tt, st')
    /\ default [] (manifest st) `prefix_of` default [] (manifest st').
Proof.
  destruct (rebuild_combined args) eqn:Hreb.
  - unfold main. rewrite Hreb, andb_false_r.
    unfold rebuild_combined_from_txt, bind, get, write_combined.
    eexists. split; reflexivity.
  - destruct (decide (enumerated args entries = [])) as [He | Hne].
    + exists st. split; [apply main_empty_run; assumption | reflexivity].
    + rewrite main_incremental_run by assumption. unfold after_loop.
      pose proof (loop_manifest_prefix args w txt_dir
                    (enumerated args entries) ((loaded_ids w st, []), st))
        as Hp.
      destruct (foldl (step args w txt_dir) ((loaded_ids w st, []), st)
                      (enumerated args entries)) as [[seen parts] st1].
      eexists. split; [reflexivity | exact Hp].
Qed.

(** With the force option the record is appended whether or not the id is in
    the set. *)
Lemma forced_entry_appends args w txt_dir seen parts e st :
  force args = true -> has_url_and_id e ->
  manifest (step args w txt_dir ((seen, parts), st) e).2
  = ledger_plus w (manifest st) (entry_record w txt_dir e).
Proof.
  intros Hf Hv. rewrite step_acquired by auto. reflexivity.
Qed.

(** C6 (where the code departs from it): the ledger of a first run over one
    video holds one record, whose id is [aaa]; after a second run over the
    same video with the force option it holds that record twice, so two
    records of the same id; without the force option the second run leaves
    the one record. *)
Theorem forced_run_duplicates_record :
  ledger_lines (Demo.after Demo.plain [Demo.video_a] Demo.fresh)
  = [Demo.line_a]
  /\ ledger_lines
       (Demo.after Demo.forced [Demo.video_a]
          (Demo.after Demo.plain [Demo.video_a] Demo.fresh))
     = [Demo.line_a; Demo.line_a]
  /\ ledger_keys Demo.world
       (Demo.after Demo.forced [Demo.video_a]
          (Demo.after Demo.plain [Demo.video_a] Demo.fresh))
     = [KStr (str "aaa"); KStr (str "aaa")]
  /\ ledger_lines
       (Demo.after Demo.plain [Demo.video_a]
          (Demo.after Demo.plain [Demo.video_a] Demo.fresh))
     = [Demo.line_a].
Proof. repeat split; vm_compute; reflexivity. Qed.

(** ** Checks of the definitions on small inputs *)

Example safe_name_example :
  safe_name no_table (str "  Hello,  World!!  [abc-123] ") 80
  = str "Hello_ World_ _abc-123".
Proof. vm_compute. reflexivity. Qed.

Example safe_name_negative_bound :
  safe_name no_table (str "abcdef") (-2) = str "abcd".
Proof. vm_compute. reflexivity. Qed.

Example utf8_encode_example :
  utf8_encode [233%N; 8364%N; 128512%N]
  = [195; 169; 226; 130; 172; 240; 159; 152; 128]%N.
Proof. vm_compute. reflexivity. Qed.

Example glob_match_example :
  glob_match (str "bbb") (str ".m4a") (str "Second talk [bbb].m4a") = true
  /\ glob_match (str "bbb") (str ".m4a") (str "Second talk [bbb].mp3") = false
  /\ glob_match (str "zzz") (str ".m4a") (str "Second talk [bbb].m4a") = false.
Proof. repeat split; vm_compute; reflexivity. Qed.

Example largest_example :
  largest snd [(str "a", 3); (str "b", 7); (str "c", 7); (str "d", 1)]
  = Some (str "b", 7).
Proof. vm_compute. reflexivity. Qed.

Example readlines_example :
  readlines (str "ab" ++ nl ++ nl ++ str "c") = [str "ab" ++ nl; nl; str "c"].
Proof. vm_compute. reflexivity. Qed.

(** A whole run on the state a crash left: no request, one record. *)
Example resume_after_crash_run :
  trace (Demo.after Demo.plain [Demo.video_a] Demo.crashed) = []
  /\ manifest (Demo.after Demo.plain [Demo.video_a] Demo.crashed)
     = Some Demo.line_a
  /\ ledger_keys Demo.world (Demo.after Demo.plain [Demo.video_a] Demo.crashed)
     = [KStr (str "aaa")].
Proof. repeat split; vm_compute; reflexivity. Qed.

(** A first run over the two videos: the requests it makes, in order. *)
Example first_run_trace :
  trace Demo.first_run
  = [FetchCaptions Demo.url_a; FetchCaptions Demo.url_b;
     FetchAudio Demo.url_b; Transcribe (str "Second talk [bbb].m4a");
     Unlink (str "Second talk [bbb].m4a")].
Proof. vm_compute. reflexivity. Qed.

(** * Properties of the rest of the program *)

(** ** Appending to the ledger and loading it *)

Lemma foldl_add_line_snoc w lines line :
  foldl (add_line w) ∅ (lines ++ [line])
  = add_line w (foldl (add_line w) ∅ lines) line.
Proof. rewrite foldl_app. reflexivity. Qed.

Lemma append_manifest_run w rec st :
  append_manifest w rec st
  = (Ok tt,
     mkState (txt_files st) (ledger_plus w (manifest st) rec) (combined st)
             (trace st)).
Proof. reflexivity. Qed.




(** ** A torn last line *)




(** ** What one turn of the loop does to the ledger and to the id set *)

Lemma ledger_keys_same_manifest w st st' :
  manifest st' = manifest st -> ledger_keys w st' = ledger_keys w st.
Proof. unfold ledger_keys, ledger_lines. intros ->. reflexivity. Qed.

Lemma ledger_closed_same_manifest st st' :
  manifest st' = manifest st -> ledger_closed st -> ledger_closed st'.
Proof. unfold ledger_closed. intros ->. auto. Qed.

Lemma step_ledger_cases args w txt_dir seen parts e st :
  (manifest (step args w txt_dir ((seen, parts), st) e).2 = manifest st
   /\ (step args w txt_dir ((seen, parts), st) e).1.1 = seen
   /\ (has_url_and_id e -> KStr (e_id e) ∈ seen))
  \/ (manifest (step args w txt_dir ((seen, parts), st) e).2
      = ledger_plus w (manifest st) (entry_record w txt_dir e)
      /\ (step args w txt_dir ((seen, parts), st) e).1.1
         = {[KStr (e_id e)]} ∪ seen
      /\ has_url_and_id e
      /\ (force args = false -> KStr (e_id e) ∉ seen)).
Proof.
  unfold step.
  destruct (decide (has_url_and_id e)) as [Hv | Hn];
    [| left; simpl; split; [| split]; [reflexivity .. | contradiction]].
  destruct (decide (force args = false /\ already_done w seen st e))
    as [[Hf Hd] | Hnot]; simpl.
  - unfold skipped_state.
    destruct (decide (KStr (e_id e) ∈ seen)) as [Hin | Hout].
    + rewrite bool_decide_eq_true_2 by exact Hin. left.
      split; [reflexivity |]. split; [apply seen_add_known, Hin | auto].
    + rewrite bool_decide_eq_false_2 by exact Hout. right. simpl. auto.
  - right. split; [reflexivity |]. split; [reflexivity |].
    split; [exact Hv |]. intros Hf Hin. apply Hnot. split; [exact Hf |].
    left. exact Hin.
Qed.

Lemma step_ids_match args w txt_dir seen parts e st :
  (has_url_and_id e -> reads_back w txt_dir e) ->
  ledger_closed st ->
  ids_match w seen st ->
  ledger_closed (step args w txt_dir ((seen, parts), st) e).2
  /\ ids_match w (step args w txt_dir ((seen, parts), st) e).1.1
               (step args w txt_dir ((seen, parts), st) e).2
  /\ seen ⊆ (step args w txt_dir ((seen, parts), st) e).1.1
  /\ (has_url_and_id e ->
      KStr (e_id e) ∈ (step args w txt_dir ((seen, parts), st) e).1.1)
  /\ ledger_keys w st
     `prefix_of` ledger_keys w (step args w txt_dir ((seen, parts), st) e).2.
Proof.
  intros Hback Hc Hm.
  destruct (step_ledger_cases args w txt_dir seen parts e st)
    as [(Hman & Hseen & Hin) | (Hman & Hseen & Hv & _)].
  - rewrite Hseen. rewrite (ledger_keys_same_manifest w _ _ Hman).
    split; [apply (ledger_closed_same_manifest _ _ Hman Hc) |].
    split; [intros k; unfold ids_match in Hm;
            rewrite (ledger_keys_same_manifest w _ _ Hman); apply Hm |].
    split; [reflexivity |]. split; [exact Hin |].
    reflexivity.
  - destruct (ledger_plus_keys w txt_dir st e _ Hc (Hback Hv) Hman)
      as [Hkeys Hc'].
    rewrite Hseen, Hkeys. split; [exact Hc' |]. split.
    + intros k. rewrite Hkeys, elem_of_union, elem_of_singleton, elem_of_app,
        list_elem_of_singleton, (Hm k). tauto.
    + split; [apply union_subseteq_r |].
      split; [intros _; apply elem_of_union; left;
              apply elem_of_singleton; reflexivity |].
      eexists. reflexivity.
Qed.

Lemma loop_ids_match args w txt_dir es x :
  Forall (fun e => has_url_and_id e -> reads_back w txt_dir e) es ->
  ledger_closed x.2 ->
  ids_match w x.1.1 x.2 ->
  ledger_closed (foldl (step args w txt_dir) x es).2
  /\ ids_match w (foldl (step args w txt_dir) x es).1.1
               (foldl (step args w txt_dir) x es).2
  /\ x.1.1 ⊆ (foldl (step args w txt_dir) x es).1.1
  /\ Forall (fun e => has_url_and_id e ->
                      KStr (e_id e) ∈ (foldl (step args w txt_dir) x es).1.1)
            es
  /\ ledger_keys w x.2
     `prefix_of` ledger_keys w (foldl (step args w txt_dir) x es).2.
Proof.
  intros Hes. revert x.
  induction Hes as [|e es He _ IH]; intros [[seen parts] st] Hc Hm;
    cbn [foldl].
  - split; [exact Hc |]. split; [exact Hm |]. split; [reflexivity |].
    split; [constructor | reflexivity].
  - destruct (step_ids_match args w txt_dir seen parts e st He Hc Hm)
      as (Hc1 & Hm1 & Hsub1 & Hin1 & Hpre1).
    destruct (IH _ Hc1 Hm1) as (Hc2 & Hm2 & Hsub2 & Hin2 & Hpre2).
    split; [exact Hc2 |]. split; [exact Hm2 |].
    split; [etransitivity; eassumption |].
    split; [| etransitivity; eassumption].
    constructor; [| exact Hin2]. intros Hv. apply Hsub2, Hin1, Hv.
Qed.

Lemma loaded_ids_match w st : ids_match w (loaded_ids w st) st.
Proof.
  intros k. split; [| apply loaded_ids_keys].
  unfold loaded_ids, ledger_keys. rewrite elem_of_foldl_add_line.
  intros [H | (line & Hl & Hg)]; [apply not_elem_of_empty in H; contradiction |].
  apply list_elem_of_omap. exists line. split; [exact Hl |].
  apply line_key_gives_id, Hg.
Qed.

(** ** What a run leaves of the persisted state *)

Lemma main_persisted args w txt_dir entries st :
  exists st',
    main args w txt_dir entries st = (Ok tt, st')
    /\ (((rebuild_combined args = true \/ enumerated args entries = [])
         /\ txt_files st' = txt_files st /\ manifest st' = manifest st
         /\ trace st' = trace st)
        \/ (rebuild_combined args = false /\ enumerated args entries <> []
            /\ txt_files st'
               = txt_files (after_loop args w txt_dir entries st).2
            /\ manifest st'
               = manifest (after_loop args w txt_dir entries st).2
            /\ trace st' = trace (after_loop args w txt_dir entries st).2)).
Proof.
  destruct (rebuild_combined args) eqn:Hreb.
  - unfold main. rewrite Hreb, andb_false_r.
    unfold rebuild_combined_from_txt, bind, get, write_combined.
    eexists. split; [reflexivity |]. left. simpl. auto.
  - destruct (decide (enumerated args entries = [])) as [He | Hne].
    + exists st. split; [apply main_empty_run; assumption |]. left. auto.
    + rewrite main_incremental_run by assumption.
      destruct (after_loop args w txt_dir entries st) as [[seen parts] st1].
      eexists. split; [reflexivity |]. right. simpl. auto.
Qed.

Lemma step_txt_files args w txt_dir seen parts e st :
  txt_files (step args w txt_dir ((seen, parts), st) e).2 = txt_files st
  \/ (txt_files (step args w txt_dir ((seen, parts), st) e).2
      = <[per_txt_name w (e_title e) (e_id e)
          := acquire_text args w (e_url e)]> (txt_files st)
      /\ ~ (force args = false /\ already_done w seen st e)).
Proof.
  unfold step.
  destruct (decide (has_url_and_id e)); [| left; reflexivity].
  destruct (decide (force args = false /\ already_done w seen st e)); simpl.
  - left. unfold skipped_state. destruct (bool_decide _); reflexivity.
  - right. auto.
Qed.

Lemma step_trace_prefix args w txt_dir x e :
  trace x.2 `prefix_of` trace (step args w txt_dir x e).2.
Proof.
  destruct x as [[seen parts] st]. unfold step.
  destruct (decide (has_url_and_id e)); [| reflexivity].
  destruct (decide (force args = false /\ already_done w seen st e)); simpl.
  - unfold skipped_state. destruct (bool_decide _); reflexivity.
  - eexists. reflexivity.
Qed.

Lemma loop_keeps_files args w txt_dir es x :
  dom (txt_files x.2) ⊆ dom (txt_files (foldl (step args w txt_dir) x es).2)
  /\ trace x.2 `prefix_of` trace (foldl (step args w txt_dir) x es).2.
Proof.
  revert x. induction es as [|e es IH]; intros x; cbn [foldl].
  - split; reflexivity.
  - destruct (IH (step args w txt_dir x e)) as [Hd Ht].
    split.
    + etransitivity; [| exact Hd]. destruct x as [[seen parts] st].
      destruct (step_txt_files args w txt_dir seen parts e st)
        as [-> | [-> _]]; [reflexivity |].
      rewrite dom_insert_L. apply union_subseteq_r.
    + etransitivity; [apply step_trace_prefix | exact Ht].
Qed.

Lemma loop_keeps_big_files args w txt_dir es x name content :
  force args = false ->
  txt_files x.2 !! name = Some content ->
  32 < utf8_size content ->
  txt_files (foldl (step args w txt_dir) x es).2 !! name = Some content.
Proof.
  intros Hf. revert x. induction es as [|e es IH]; intros x Hl Hs;
    cbn [foldl]; [exact Hl |].
  apply IH; [| exact Hs]. destruct x as [[seen parts] st].
  destruct (step_txt_files args w txt_dir seen parts e st)
    as [-> | [-> Hnot]]; [exact Hl |].
  destruct (decide (per_txt_name w (e_title e) (e_id e) = name)) as [He | Hne].
  - exfalso. apply Hnot. split; [exact Hf |]. right. exists content.
    rewrite He. auto.
  - rewrite lookup_insert_ne by exact Hne. exact Hl.
Qed.

(** X3: in the state a run leaves, whatever the options and the
    enumeration, every per-video file that was there is still there, the
    ledger begins with what it held (nothing of it is rewritten or removed)
    and the requests begin with those made before. *)
Theorem run_keeps_what_is_persisted (args : Args) (w : World)
    (txt_dir : pystr) (entries : list Entry) (st : State) :
  dom (txt_files st) ⊆ dom (txt_files (main args w txt_dir entries st).2)
  /\ default [] (manifest st)
     `prefix_of` default [] (manifest (main args w txt_dir entries st).2)
  /\ trace st `prefix_of` trace (main args w txt_dir entries st).2.
Proof.
  destruct (main_persisted args w txt_dir entries st)
    as (st' & Hrun & [(_ & Hf & Hm & Ht) | (_ & _ & Hf & Hm & Ht)]);
    rewrite Hrun; cbn [snd]; rewrite Hf, Hm, Ht.
  - split; [reflexivity |]. split; reflexivity.
  - unfold after_loop.
    destruct (loop_keeps_files args w txt_dir (enumerated args entries)
                ((loaded_ids w st, []), st)) as [Hd Htr].
    split; [exact Hd |]. split; [| exact Htr].
    apply (loop_manifest_prefix args w txt_dir (enumerated args entries)
             ((loaded_ids w st, []), st)).
Qed.

(** X4: without the force option a run leaves every per-video file of more
    than 32 bytes as it is. *)
Theorem run_keeps_transcripts_without_force (args : Args) (w : World)
    (txt_dir : pystr) (entries : list Entry) (st : State) :
  force args = false ->
  exists st',
    main args w txt_dir entries st = (Ok tt, st')
    /\ forall name content,
         txt_files st !! name = Some content ->
         32 < utf8_size content ->
         txt_files st' !! name = Some content.
Proof.
  intros Hforce.
  destruct (main_persisted args w txt_dir entries st)
    as (st' & Hrun & [(_ & Hf & _) | (_ & _ & Hf & _)]);
    exists st'; (split; [exact Hrun |]); rewrite Hf; [auto |].
  intros name content Hl Hs. unfold after_loop.
  apply loop_keeps_big_files; assumption.
Qed.

Lemma run_keeps_transcripts_demo :
  force Demo.plain = false
  /\ exists st',
       main Demo.plain Demo.world Demo.txt_dir [Demo.video_a; Demo.video_b]
            Demo2.annotated
       = (Ok tt, st')
       /\ txt_files st'
          !! per_txt_name Demo.world (e_title Demo.video_a) (e_id Demo.video_a)
          = Some Demo2.notes.
Proof.
  assert (Hf : force Demo.plain = false) by reflexivity.
  split; [exact Hf |].
  destruct (run_keeps_transcripts_without_force Demo.plain Demo.world
              Demo.txt_dir [Demo.video_a; Demo.video_b] Demo2.annotated Hf)
    as (st' & Hrun & Hkeep).
  exists st'. split; [exact Hrun |]. apply Hkeep.
  - apply lookup_singleton_eq.
  - vm_compute. lia.
Defined.

(** ** The ids of the ledger across runs *)


(** X5: without the force option a run keeps the ids of the ledger
    distinct. When the ledger does not end in a torn line, holds each id once
    and the codec reads back the records it writes, the ledger after the run
    holds each id once again, begins with the ids it held, and ends in a
    newline. *)
Theorem ledger_ids_stay_distinct (args : Args) (w : World) (txt_dir : pystr)
    (entries : list Entry) (st : State) :
  force args = false ->
  Forall (fun e => has_url_and_id e -> reads_back w txt_dir e)
         (enumerated args entries) ->
  ledger_closed st ->
  NoDup (ledger_keys w st) ->
  exists st',
    main args w txt_dir entries st = (Ok tt, st')
    /\ NoDup (ledger_keys w st')
    /\ ledger_keys w st `prefix_of` ledger_keys w st'
    /\ ledger_closed st'.
Proof.
  intros Hforce Hback Hc Hnd.
  destruct (main_persisted args w txt_dir entries st)
    as (st' & Hrun & [(_ & _ & Hm & _) | (_ & _ & _ & Hm & _)]);
    exists st'; (split; [exact Hrun |]).
  - rewrite (ledger_keys_same_manifest w _ _ Hm).
    split; [exact Hnd |]. split; [reflexivity |].
    apply (ledger_closed_same_manifest _ _ Hm Hc).
  - rewrite (ledger_keys_same_manifest w _ _ Hm). unfold after_loop.
    assert (Hinv : ledger_inv w
              (foldl (step args w txt_dir) ((loaded_ids w st, []), st)
                     (enumerated args entries))).
    { apply loop_ledger_inv; [exact Hforce | exact Hback |].
      split; [exact Hc |]. split; [exact Hnd |]. apply loaded_ids_keys. }
    destruct (loop_ids_match args w txt_dir (enumerated args entries)
                ((loaded_ids w st, []), st) Hback Hc (loaded_ids_match w st))
      as (Hc' & _ & _ & _ & Hpre).
    destruct Hinv as (_ & Hnd' & _).
    split; [exact Hnd' |]. split; [exact Hpre |].
    apply (ledger_closed_same_manifest _ _ Hm Hc').
Qed.



Lemma ledger_ids_stay_distinct_demo :
  force Demo.plain = false
  /\ ledger_closed Demo.first_run
  /\ NoDup (ledger_keys Demo.world Demo.first_run)
  /\ exists st',
       main Demo.plain Demo.world Demo.txt_dir
            [Demo.video_b; Demo.video_a; Demo.video_b] Demo.first_run
       = (Ok tt, st')
       /\ NoDup (ledger_keys Demo.world st').
Proof.
  assert (Hf : force Demo.plain = false) by reflexivity.
  assert (Hc : ledger_closed Demo.first_run)
    by (right; vm_compute; reflexivity).
  assert (Hnd : NoDup (ledger_keys Demo.world Demo.first_run))
    by (apply (bool_decide_unpack _); vm_compute; exact I).
  split; [exact Hf |]. split; [exact Hc |]. split; [exact Hnd |].
  destruct (ledger_ids_stay_distinct Demo.plain Demo.world Demo.txt_dir
              [Demo.video_b; Demo.video_a; Demo.video_b] Demo.first_run Hf)
    as (st' & Hrun & Hnd' & _); [| exact Hc | exact Hnd | eauto].
  repeat constructor;
    first [ apply (bool_decide_unpack _); vm_compute; exact I
          | vm_compute; reflexivity ].
Defined.

(** ** Rebuilding the combined document *)

Lemma name_le_total a b : name_le a b = true \/ name_le b a = true.
Proof.
  revert b. induction a as [|x a IH]; intros [|y b]; simpl; auto.
  destruct (N.compare_spec x y) as [-> | Hlt | Hgt].
  - rewrite !N.ltb_irrefl, !N.eqb_refl. simpl. apply IH.
  - left. apply orb_true_iff. left. apply N.ltb_lt, Hlt.
  - right. apply orb_true_iff. left. apply N.ltb_lt, Hgt.
Qed.

Lemma name_le_cons x a y b :
  name_le (x :: a) (y :: b) = true
  <-> (x < y)%N \/ (x = y /\ name_le a b = true).
Proof.
  simpl. rewrite orb_true_iff, andb_true_iff, N.ltb_lt, N.eqb_eq.
  reflexivity.
Qed.

Lemma name_le_trans a b c :
  name_le a b = true -> name_le b c = true -> name_le a c = true.
Proof.
  revert b c. induction a as [|x a IH]; intros [|y b] [|z c];
    try reflexivity; try discriminate.
  rewrite !name_le_cons.
  intros [Hxy | [-> Hab]] [Hyz | [-> Hbc]].
  - left. lia.
  - left. exact Hxy.
  - left. exact Hyz.
  - right. split; [reflexivity | eapply IH; eassumption].
Qed.

Lemma name_le_antisym a b :
  name_le a b = true -> name_le b a = true -> a = b.
Proof.
  revert b. induction a as [|x a IH]; intros [|y b];
    try reflexivity; try discriminate.
  rewrite !name_le_cons.
  intros [Hxy | [-> Hab]] [Hyx | [Heq Hba]]; try lia.
  f_equal. apply IH; assumption.
Qed.

#[local] Instance file_le_total : Total file_le.
Proof. intros f g. apply name_le_total. Qed.

#[local] Instance file_le_trans : Transitive file_le.
Proof. intros f g h. apply name_le_trans. Qed.




(** Three per-video files [a.txt], [b.txt], [c.txt] and one other file give
    the three fragments in the order a, b, c. *)
Example rebuild_shelf_example :
  rebuild_combined_from_txt Demo3.shelf
  = (Ok tt,
     mkState (txt_files Demo3.shelf) (manifest Demo3.shelf)
       (Some (join nl
                [str "# a" ++ nl ++ nl ++ str "alpha" ++ nl ++ nl;
                 str "# b" ++ nl ++ nl ++ str "beta" ++ nl ++ nl;
                 str "# c" ++ nl ++ nl ++ str "gamma" ++ nl ++ nl]))
       []).
Proof. vm_compute. reflexivity. Qed.

(** ** The enumeration *)

Lemma collect_entry_entry_of entries e :
  collect_entry entries e = entries ++ option_list (entry_of e).
Proof.
  unfold collect_entry, entry_of.
  destruct e as [[t u i ti]|]; simpl; [| rewrite app_nil_r; reflexivity].
  destruct t as [t|]; simpl; [| rewrite app_nil_r; reflexivity].
  destruct (decide (t = str "url")) as [-> | Hne].
  - rewrite bool_decide_eq_true_2 by reflexivity.
    destruct u as [[|c u]|]; simpl; rewrite ?app_nil_r; reflexivity.
  - rewrite bool_decide_eq_false_2 by congruence.
    destruct u as [[|c u]|];
      rewrite ?bool_decide_eq_false_2 by exact Hne;
      simpl; rewrite app_nil_r; reflexivity.
Qed.

Lemma foldl_collect_entry acc raws :
  foldl collect_entry acc raws = acc ++ omap entry_of raws.
Proof.
  revert acc. induction raws as [|e raws IH]; intros acc; simpl.
  - rewrite app_nil_r. reflexivity.
  - rewrite IH, collect_entry_entry_of, <- app_assoc.
    destruct (entry_of e); reflexivity.
Qed.

Lemma entry_of_url e x : entry_of e = Some x -> e_url x <> [].
Proof.
  unfold entry_of. destruct e as [[t u i ti]|]; [| discriminate]. simpl.
  destruct t as [t|]; [| discriminate].
  destruct u as [[|c u]|]; try discriminate.
  destruct (bool_decide (t = str "url")); [| discriminate].
  intros [= <-]. discriminate.
Qed.

Lemma omap_length_le {A B} (f : A -> option B) l :
  length (omap f l) <= length l.
Proof.
  induction l as [|x l IH]; [reflexivity |].
  change (omap f (x :: l))
    with (match f x with Some y => y :: omap f l | None => omap f l end).
  destruct (f x); simpl; lia.
Qed.

(** X9: [get_channel_entries_and_meta] returns, in the order of the
    playlist, one entry for each raw entry of type [url] with a non-empty
    url, and none for the others, so never more entries than the playlist
    has; every entry it returns has a url, so the loop of [main] passes over
    such an entry only when its id is missing; without information it
    returns no entry and an empty meta. *)
Theorem enumeration_keeps_url_entries (info : option Info) (url : pystr) :
  (get_channel_entries_and_meta info url).1
  = omap entry_of (default [] (info ≫= i_entries))
  /\ Forall (fun e => e_url e <> [])
            (get_channel_entries_and_meta info url).1
  /\ Forall (fun e => has_url_and_id e <-> e_id e <> [])
            (get_channel_entries_and_meta info url).1
  /\ length (get_channel_entries_and_meta info url).1
     <= length (default [] (info ≫= i_entries))
  /\ get_channel_entries_and_meta None url = ([], None).
Proof.
  assert (Heq : (get_channel_entries_and_meta info url).1
                = omap entry_of (default [] (info ≫= i_entries))).
  { destruct info as [info|]; [| reflexivity]. simpl.
    apply (foldl_collect_entry []). }
  assert (Hurl : Forall (fun e => e_url e <> [])
                        (get_channel_entries_and_meta info url).1).
  { rewrite Heq. apply Forall_forall. intros x Hx.
    apply list_elem_of_omap in Hx as (e & _ & He).
    apply (entry_of_url _ _ He). }
  split; [exact Heq |]. split; [exact Hurl |]. split; [| split].
  - eapply Forall_impl; [exact Hurl |]. intros e He. simpl in He.
    unfold has_url_and_id.
    split; [intros [_ H]; exact H | intros H; split; assumption].
  - rewrite Heq. apply omap_length_le.
  - reflexivity.
Qed.

(** ** The channel directory *)

Lemma rstrip_by_all p s :
  Forall (fun c => p c = true) s -> rstrip_by p s = [].
Proof.
  induction 1 as [|c s Hc _ IH]; [reflexivity |].
  simpl. rewrite IH, Hc. reflexivity.
Qed.

Lemma safe_name_of_separators tbl s maxlen :
  Forall (fun c => c ∈ str "._- ") s -> safe_name tbl s maxlen = [].
Proof.
  intros Hs. unfold safe_name, rstrip_chars. apply rstrip_by_all.
  assert (Hasc : Forall (fun c => (c <? 128)%N = true) s).
  { eapply Forall_impl; [exact Hs |]. intros c Hc. unfold str in Hc.
    simpl in Hc. rewrite !elem_of_cons, elem_of_nil in Hc.
    destruct Hc as [-> | [-> | [-> | [-> | []]]]]; reflexivity. }
  rewrite (unidecode_ascii _ _ Hasc).
  assert (Hb : Forall (fun c => c ∈ str "._- ")
                 (slice_to maxlen
                    (strip (re_sub_plus isspace (str " ")
                              (re_sub_plus SAFE (str "_") (strip s)))))).
  { apply slice_to_Forall, strip_Forall, re_sub_Forall.
    - repeat constructor.
    - eapply Forall_impl.
      + apply (re_sub_Forall SAFE (str "_") (fun c => c ∈ str "._- ")).
        * repeat constructor.
        * eapply Forall_impl; [apply strip_Forall, Hs |]. auto.
      + auto. }
  eapply Forall_impl; [exact Hb |]. intros c Hc.
  apply bool_decide_eq_true_2, Hc.
Qed.

Lemma channel_candidate_nonempty meta url : channel_candidate meta url <> [].
Proof.
  unfold channel_candidate.
  destruct (bool_decide (_ = [])) eqn:Hc.
  - destruct (bool_decide (last_segment _ = [])) eqn:Hs; [discriminate |].
    apply bool_decide_eq_false in Hs. exact Hs.
  - apply bool_decide_eq_false in Hc. exact Hc.
Qed.

(** X10: the channel directory is the project root itself or a direct child
    of it: the name of the child is a slug, so it has only characters of the
    safe class (no slash, no backslash), is at most 80 long and is neither
    [.] nor [..]. The name the slug is made of is never empty: the uploader,
    else the uploader id, else what follows the last slash of the channel
    url (trailing slashes apart), else [channel]. A name of separators only
    gives the empty slug, hence the project root itself. *)
Theorem channel_dir_stays_under_root (tbl : N -> pystr)
    (project_root : list pystr) (meta : option Meta) (url : pystr) :
  ((derive_channel_dir tbl project_root meta url = project_root
    /\ safe_name tbl (channel_candidate meta url) 80 = [])
   \/ (derive_channel_dir tbl project_root meta url
       = project_root ++ [safe_name tbl (channel_candidate meta url) 80]
       /\ safe_name tbl (channel_candidate meta url) 80 <> []))
  /\ Forall (fun c => in_safe_class c = true /\ c <> 47%N /\ c <> 92%N)
            (safe_name tbl (channel_candidate meta url) 80)
  /\ length (safe_name tbl (channel_candidate meta url) 80) <= 80
  /\ safe_name tbl (channel_candidate meta url) 80 <> str "."
  /\ safe_name tbl (channel_candidate meta url) 80 <> str ".."
  /\ channel_candidate meta url <> []
  /\ (forall m, meta = Some m -> uploader m <> [] ->
                channel_candidate meta url = uploader m)
  /\ (Forall (fun c => c ∈ str "._- ") (channel_candidate meta url) ->
      derive_channel_dir tbl project_root meta url = project_root).
Proof.
  split.
  { unfold derive_channel_dir, path_child.
    destruct (decide (safe_name tbl (channel_candidate meta url) 80 = []))
      as [He | Hne].
    - left. rewrite bool_decide_eq_true_2 by exact He. auto.
    - right. rewrite bool_decide_eq_false_2 by exact Hne. auto. }
  split.
  { eapply Forall_impl; [apply safe_name_in_class |]. intros c Hc.
    split; [exact Hc |]. split; intros ->; discriminate. }
  split; [apply (safe_name_length tbl _ 80); lia |].
  split.
  { intros H. apply (safe_name_last tbl (channel_candidate meta url) 80 46%N).
    - rewrite H. reflexivity.
    - unfold str. simpl. set_solver. }
  split.
  { intros H. apply (safe_name_last tbl (channel_candidate meta url) 80 46%N).
    - rewrite H. reflexivity.
    - unfold str. simpl. set_solver. }
  split; [apply channel_candidate_nonempty |].
  split.
  { intros m -> Hu. unfold channel_candidate.
    rewrite (bool_decide_eq_false_2 _ Hu).
    rewrite (bool_decide_eq_false_2 _ Hu). reflexivity. }
  intros Hs. unfold derive_channel_dir, path_child.
  rewrite (safe_name_of_separators _ _ _ Hs). reflexivity.
Qed.

Example derive_channel_dir_examples :
  derive_channel_dir no_table [str "out"]
    (Some (mkMeta (str "Some Channel!") (str "UC123") (str "ignored")))
    (str "https://video.example/@handle")
  = [str "out"; str "Some Channel"]
  /\ derive_channel_dir no_table [str "out"] None
       (str "https://video.example/@handle//")
     = [str "out"; str "_handle"]
  /\ derive_channel_dir no_table [str "out"] None (str "///")
     = [str "out"; str "channel"]
  /\ derive_channel_dir no_table [str "out"]
       (Some (mkMeta (str "...") [] [])) (str "https://video.example/x")
     = [str "out"].
Proof. repeat split; vm_compute; reflexivity. Qed.

(** ** File names that hold an id *)

Lemma starts_with_iff p s : starts_with p s = true <-> exists b, s = p ++ b.
Proof.
  revert s. induction p as [|x p IH]; intros s; simpl.
  - split; [intros _; exists s; reflexivity | reflexivity].
  - destruct s as [|y s].
    + split; [discriminate | intros (b & Hb); discriminate].
    + rewrite andb_true_iff, N.eqb_eq, IH. split.
      * intros [-> (b & ->)]. exists b. reflexivity.
      * intros (b & [= -> ->]). split; [reflexivity | exists b; reflexivity].
Qed.

Lemma contains_iff p s :
  contains p s = true <-> exists a b, s = a ++ p ++ b.
Proof.
  induction s as [|y s IH].
  - simpl. rewrite orb_false_r, starts_with_iff. split.
    + intros (b & Hb). exists [], b. exact Hb.
    + intros (a & b & H). symmetry in H.
      apply app_eq_nil in H as [-> H]. apply app_eq_nil in H as [-> ->].
      exists []. reflexivity.
  - change (contains p (y :: s))
      with (starts_with p (y :: s) || contains p s).
    rewrite orb_true_iff, starts_with_iff, IH. split.
    + intros [(b & Hb) | (a & b & ->)].
      * exists [], b. exact Hb.
      * exists (y :: a), b. reflexivity.
    + intros ([|x a] & b & H).
      * left. exists b. exact H.
      * right. injection H as -> ->. exists a, b. reflexivity.
Qed.

Lemma glob_match_iff vid ext name :
  glob_match vid ext name = true <-> exists a b, name = a ++ vid ++ b ++ ext.
Proof.
  unfold glob_match.
  rewrite andb_true_iff, bool_decide_eq_true, contains_iff. split.
  - intros [Hd (a & b & Ht)]. exists a, b.
    rewrite <- (take_drop (length name - length ext) name), Hd, Ht.
    rewrite <- !app_assoc. reflexivity.
  - intros (a & b & ->).
    assert (Hlen : length (a ++ vid ++ b ++ ext) - length ext
                   = length (a ++ vid ++ b))
      by (rewrite !length_app; lia).
    rewrite Hlen.
    replace (a ++ vid ++ b ++ ext) with ((a ++ vid ++ b) ++ ext)
      by (rewrite <- !app_assoc; reflexivity).
    rewrite drop_app_length, take_app_length. split; [reflexivity |].
    exists a, b. reflexivity.
Qed.

Lemma largest_spec {A} (size : A -> nat) l x :
  largest size l = Some x ->
  exists pre post,
    l = pre ++ x :: post
    /\ Forall (fun y => size y < size x) pre
    /\ Forall (fun y => size y <= size x) post.
Proof.
  revert x. induction l as [|y l IH]; intros x; [discriminate |].
  simpl. destruct (largest size l) as [z|] eqn:Hz.
  - destruct (IH z eq_refl) as (pre & post & -> & Hpre & Hpost).
    destruct (Nat.ltb_spec (size y) (size z)) as [Hlt | Hge];
      intros [= <-].
    + exists (y :: pre), post. split; [reflexivity |].
      split; [constructor; assumption | exact Hpost].
    + exists [], (pre ++ z :: post). split; [reflexivity |].
      split; [constructor |].
      apply Forall_app. split.
      * eapply Forall_impl; [exact Hpre |]. simpl. intros; lia.
      * constructor; [exact Hge |].
        eapply Forall_impl; [exact Hpost |]. simpl. intros; lia.
  - intros [= <-]. destruct l; [| simpl in Hz; destruct (largest size l);
      [destruct (_ <? _) |]; discriminate].
    exists [], []. repeat constructor.
Qed.

Lemma largest_None {A} (size : A -> nat) l :
  largest size l = None <-> l = [].
Proof.
  split; [| intros ->; reflexivity].
  destruct l as [|y l]; [reflexivity |]. simpl.
  destruct (largest size l); [destruct (_ <? _) |]; discriminate.
Qed.

(** ** The caption acquirer *)

(** X11: when the id the downloader reports is plain (not empty, no [*],
    [?], [[], [/] or [\]), [try_download_subs] asks for the captions once
    and returns. It returns a text only when the downloader gave information
    and some file of the caption directory ends in [.vtt] and holds the
    reported id before that; the text is then the normalised cues of the
    first largest such file. It returns [None] without information, without
    such a file, and when reading that largest file raises, also when a
    smaller file would read. *)
Theorem try_download_subs_reads_largest (w : World) (url : pystr)
    (st : State) :
  captions_id_plain w url ->
  exists r,
    try_download_subs w url st = (Ok r, add_trace st [FetchCaptions url])
    /\ (forall t, r = Some t ->
          exists vid files pre vtt post cues,
            yt_captions w url = Some (vid, files)
            /\ filter (fun f => glob_match vid (str ".vtt") (vtt_name f) = true)
                      files
               = pre ++ vtt :: post
            /\ (exists a b, vtt_name vtt = a ++ vid ++ b ++ str ".vtt")
            /\ Forall (fun f => vtt_size f < vtt_size vtt) pre
            /\ Forall (fun f => vtt_size f <= vtt_size vtt) post
            /\ vtt_cues vtt = Ok cues
            /\ t = vtt_to_txt cues)
    /\ (yt_captions w url = None -> r = None)
    /\ (forall vid files,
          yt_captions w url = Some (vid, files) ->
          Forall (fun f => forall a b,
                    vtt_name f <> a ++ vid ++ b ++ str ".vtt") files ->
          r = None)
    /\ (forall vtt ex,
          caption_file w url = Some vtt -> vtt_cues vtt = Raised ex ->
          r = None).
Proof.
  intros _.
  exists (tier1 w url). split; [apply try_download_subs_run |].
  unfold tier1, caption_file. split; [| split; [| split]].
  - intros t Ht.
    destruct (yt_captions w url) as [[vid files]|]; [| discriminate].
    destruct (largest vtt_size _) as [vtt|] eqn:Hl; [| discriminate].
    destruct (vtt_cues vtt) as [cues|] eqn:Hc; [| discriminate].
    injection Ht as <-.
    destruct (largest_spec _ _ _ Hl) as (pre & post & Hf & Hpre & Hpost).
    exists vid, files, pre, vtt, post, cues.
    split; [reflexivity |]. split; [exact Hf |]. split; [| auto].
    apply glob_match_iff.
    assert (Hin : vtt ∈ filter
              (fun f => glob_match vid (str ".vtt") (vtt_name f) = true) files)
      by (rewrite Hf; apply elem_of_app; right; left).
    apply list_elem_of_filter in Hin as [Hm _]. exact Hm.
  - intros ->. reflexivity.
  - intros vid files -> Hall.
    assert (He : filter
              (fun f => glob_match vid (str ".vtt") (vtt_name f) = true) files
              = []).
    { induction Hall as [|f files Hf _ IH]; [reflexivity |].
      rewrite filter_cons.
      destruct (decide (glob_match vid (str ".vtt") (vtt_name f) = true))
        as [Hm | _]; [| exact IH].
      apply glob_match_iff in Hm as (a & b & Hm). destruct (Hf a b Hm). }
    rewrite He. reflexivity.
  - intros vtt ex -> ->. reflexivity.
Qed.

(** The first video: its id is plain and its only caption file is read. *)
Lemma try_download_subs_demo :
  captions_id_plain Demo.world Demo.url_a
  /\ exists t,
       try_download_subs Demo.world Demo.url_a Demo.fresh
       = (Ok (Some t), add_trace Demo.fresh [FetchCaptions Demo.url_a])
       /\ 50 <= length t.
Proof.
  assert (Hp : captions_id_plain Demo.world Demo.url_a).
  { unfold captions_id_plain.
    change (yt_captions Demo.world Demo.url_a) with (Demo.captions Demo.url_a).
    unfold Demo.captions. rewrite bool_decide_eq_true_2 by reflexivity.
    apply (bool_decide_unpack _). vm_compute. exact I. }
  split; [exact Hp |].
  destruct (try_download_subs_reads_largest Demo.world Demo.url_a Demo.fresh Hp)
    as (r & Hrun & _).
  rewrite Hrun.
  assert (Hr : r = tier1 Demo.world Demo.url_a).
  { rewrite try_download_subs_run in Hrun. congruence. }
  rewrite Hr. eexists. split; [vm_compute; reflexivity |].
  vm_compute. lia.
Defined.

(** ** The audio acquirer *)

Lemma filter_nil_iff {A} (P : A -> Prop) `{forall x, Decision (P x)} l :
  filter P l = [] <-> Forall (fun x => ~ P x) l.
Proof.
  induction l as [|x l IH]; [split; [constructor | reflexivity] |].
  rewrite filter_cons. destruct (decide (P x)) as [Hp | Hn].
  - split; [discriminate |]. intros Hall. inversion Hall; contradiction.
  - rewrite IH. split; [constructor; assumption |].
    intros Hall. inversion Hall; assumption.
Qed.

Lemma find_audio_unfold tbl title vid files :
  find_audio tbl title vid files
  = match filter (fun ext => slug_file tbl title vid ext ∈ files.*1)
                 audio_exts with
    | ext :: _ => Some (slug_file tbl title vid ext)
    | [] => fst <$> largest snd (audio_candidates vid files)
    end.
Proof. reflexivity. Qed.

Lemma elem_of_audio_candidates vid files f :
  f ∈ audio_candidates vid files
  <-> f ∈ files /\ exists ext, ext ∈ audio_exts /\ holds_id vid ext f.1.
Proof.
  unfold audio_candidates, holds_id. rewrite list_elem_of_bind. split.
  - intros (ext & Hf & Hext). apply list_elem_of_filter in Hf as [Hm Hf].
    split; [exact Hf |]. exists ext. split; [exact Hext |].
    apply glob_match_iff, Hm.
  - intros (Hf & ext & Hext & Hm). exists ext. split; [| exact Hext].
    apply list_elem_of_filter. split; [apply glob_match_iff, Hm | exact Hf].
Qed.

Lemma holds_id_suffix vid ext name : holds_id vid ext name -> ext `suffix_of` name.
Proof.
  intros (a & b & ->). exists (a ++ vid ++ b).
  rewrite <- !app_assoc. reflexivity.
Qed.

(** X12: when a file named after the slug is there or the id the
    downloader reports is plain, [download_audio] asks for the audio once
    and returns. The file it returns is a file of the audio directory whose
    name ends in [.m4a], [.mp3] or [.opus]. When the directory has a file
    named after the slug of [<title> [<id>]] with one of these extensions,
    that file is returned, whatever the others are; otherwise a largest file
    among those that hold the id in their name. It returns [None] exactly
    when the downloader gave no information or the directory has no such
    file. *)
Theorem download_audio_finds_file (w : World) (url : pystr) (st : State) :
  audio_id_plain w url ->
  download_audio w url st
  = (Ok (audio_of w url), add_trace st [FetchAudio url])
  /\ (forall p, audio_of w url = Some p ->
        exists title vid files ext,
          yt_audio w url = Some (title, vid, files)
          /\ p ∈ files.*1 /\ ext ∈ audio_exts /\ ext `suffix_of` p)
  /\ (forall title vid files ext,
        yt_audio w url = Some (title, vid, files) ->
        ext ∈ audio_exts ->
        slug_file (translit w) title vid ext ∈ files.*1 ->
        exists ext',
          ext' ∈ audio_exts
          /\ audio_of w url = Some (slug_file (translit w) title vid ext'))
  /\ (forall title vid files p,
        yt_audio w url = Some (title, vid, files) ->
        Forall (fun ext => slug_file (translit w) title vid ext ∉ files.*1)
               audio_exts ->
        audio_of w url = Some p ->
        exists size,
          (p, size) ∈ files
          /\ (exists ext, ext ∈ audio_exts /\ holds_id vid ext p)
          /\ forall f ext, f ∈ files -> ext ∈ audio_exts ->
                           holds_id vid ext f.1 -> f.2 <= size)
  /\ (audio_of w url = None <->
      yt_audio w url = None
      \/ exists title vid files,
           yt_audio w url = Some (title, vid, files)
           /\ Forall (fun ext =>
                        slug_file (translit w) title vid ext ∉ files.*1)
                     audio_exts
           /\ forall f ext, f ∈ files -> ext ∈ audio_exts ->
                            ~ holds_id vid ext f.1).
Proof.
  intros _.
  split; [apply download_audio_run |].
  unfold audio_of.
  destruct (yt_audio w url) as [[[title vid] files]|];
    [| split; [discriminate |]; split; [discriminate |];
       split; [discriminate | split; auto]].
  rewrite find_audio_unfold.
  destruct (filter (fun ext => slug_file (translit w) title vid ext ∈ files.*1)
                   audio_exts) as [|ext0 rest] eqn:Hfil.
  - (* no file is named after the slug *)
    assert (Hnone : Forall (fun ext => slug_file (translit w) title vid ext
                                       ∉ files.*1) audio_exts)
      by (apply filter_nil_iff in Hfil; exact Hfil).
    split; [| split; [| split; [| split]]].
    + intros p Hp. apply fmap_Some in Hp as ([p' size] & Hl & ->).
      destruct (largest_spec _ _ _ Hl) as (pre & post & Hc & _).
      assert (Hin : (p', size) ∈ audio_candidates vid files)
        by (rewrite Hc; apply elem_of_app; right; left).
      apply elem_of_audio_candidates in Hin as (Hf & ext & Hext & Hid).
      exists title, vid, files, ext. split; [reflexivity |].
      split; [apply list_elem_of_fmap; exists (p', size); auto |].
      split; [exact Hext | apply (holds_id_suffix _ _ _ Hid)].
    + intros t v f ext [= <- <- <-] Hext Hin.
      rewrite Forall_forall in Hnone. destruct (Hnone ext Hext Hin).
    + intros t v f p [= <- <- <-] _ Hp.
      apply fmap_Some in Hp as ([p' size] & Hl & ->).
      destruct (largest_spec _ _ _ Hl) as (pre & post & Hc & Hpre & Hpost).
      assert (Hin : (p', size) ∈ audio_candidates vid files)
        by (rewrite Hc; apply elem_of_app; right; left).
      apply elem_of_audio_candidates in Hin as (Hf & Hid).
      exists size. split; [exact Hf |]. split; [exact Hid |].
      intros g ext Hg Hext Hgid.
      assert (Hgc : g ∈ audio_candidates vid files)
        by (apply elem_of_audio_candidates; eauto).
      rewrite Hc in Hgc. rewrite Forall_forall in Hpre, Hpost.
      apply elem_of_app in Hgc as [Hgc | Hgc].
      * specialize (Hpre g Hgc). simpl in Hpre. lia.
      * apply elem_of_cons in Hgc as [-> | Hgc]; [simpl; lia |].
        apply (Hpost g Hgc).
    + intros Hn. right. exists title, vid, files.
      split; [reflexivity |]. split; [exact Hnone |].
      intros g ext Hg Hext Hid.
      apply fmap_None, largest_None in Hn.
      assert (Hgc : g ∈ audio_candidates vid files)
        by (apply elem_of_audio_candidates; eauto).
      rewrite Hn in Hgc. apply elem_of_nil in Hgc. exact Hgc.
    + intros [Hn | (t & v & f & [= <- <- <-] & _ & Hno)]; [discriminate |].
      apply fmap_None, largest_None.
      destruct (audio_candidates vid files) as [|g cands] eqn:Hc;
        [reflexivity |].
      assert (Hgc : g ∈ audio_candidates vid files)
        by (rewrite Hc; left).
      apply elem_of_audio_candidates in Hgc as (Hg & ext & Hext & Hid).
      destruct (Hno g ext Hg Hext Hid).
  - (* a file is named after the slug *)
    assert (Hin0 : ext0 ∈ audio_exts
                   /\ slug_file (translit w) title vid ext0 ∈ files.*1).
    { assert (H0 : ext0 ∈ filter
                (fun ext => slug_file (translit w) title vid ext ∈ files.*1)
                audio_exts) by (rewrite Hfil; left).
      apply list_elem_of_filter in H0. tauto. }
    destruct Hin0 as [Hext0 Hfile0].
    split; [| split; [| split; [| split]]].
    + intros p [= <-]. exists title, vid, files, ext0.
      split; [reflexivity |]. split; [exact Hfile0 |].
      split; [exact Hext0 |]. eexists. reflexivity.
    + intros t v f ext [= <- <- <-] _ _. exists ext0. auto.
    + intros t v f p [= <- <- <-] Hnone _.
      rewrite Forall_forall in Hnone. destruct (Hnone ext0 Hext0 Hfile0).
    + discriminate.
    + intros [Hn | (t & v & f & [= <- <- <-] & Hnone & _)]; [discriminate |].
      rewrite Forall_forall in Hnone. destruct (Hnone ext0 Hext0 Hfile0).
Qed.

(** The second video: the file named after the slug is there. *)
Lemma download_audio_demo :
  audio_id_plain Demo.world Demo.url_b
  /\ download_audio Demo.world Demo.url_b Demo.fresh
     = (Ok (Some (str "Second talk [bbb].m4a")),
        add_trace Demo.fresh [FetchAudio Demo.url_b]).
Proof.
  assert (Hp : audio_id_plain Demo.world Demo.url_b).
  { unfold audio_id_plain.
    change (yt_audio Demo.world Demo.url_b) with (Demo.audio Demo.url_b).
    unfold Demo.audio. rewrite bool_decide_eq_true_2 by reflexivity.
    right. apply (bool_decide_unpack _). vm_compute. exact I. }
  split; [exact Hp |].
  destruct (download_audio_finds_file Demo.world Demo.url_b Demo.fresh Hp)
    as (Hrun & _).
  rewrite Hrun. vm_compute. reflexivity.
Defined.

(** ** The speech engine *)

Lemma strip_blank s : Forall (fun c => isspace c = true) s -> strip s = [].
Proof. intros Hs. unfold strip. rewrite (rstrip_by_all _ _ Hs). reflexivity. Qed.

Lemma join_blank parts :
  Forall (fun s => s = []) parts ->
  Forall (fun c => isspace c = true) (join sp parts).
Proof.
  induction 1 as [|s parts -> _ IH]; [constructor |].
  destruct parts as [|t parts]; [constructor |].
  change (join sp ([] :: t :: parts)) with (sp ++ join sp (t :: parts)).
  apply Forall_app. split; [repeat constructor | exact IH].
Qed.

(** X13: [whisper_transcribe] raises when the engine does, and only then.
    On segments it returns their trimmed texts joined by one space and
    trimmed again: a text without leading or trailing whitespace; exactly
    the join when no segment is blank; empty when every segment is blank
    (and when there is none). *)
Theorem whisper_transcribe_text (w : World) (audio : pystr) (st : State) :
  (forall ex, engine w audio = Raised ex ->
     whisper_transcribe w audio st
     = (Raised ex, add_trace st [Transcribe audio]))
  /\ (forall segments, engine w audio = Ok segments ->
        whisper_transcribe w audio st
        = (Ok (tier3 w audio), add_trace st [Transcribe audio])
        /\ trimmed (tier3 w audio)
        /\ (Forall (fun s => strip s <> []) segments ->
            tier3 w audio = join sp (strip <$> segments))
        /\ (Forall (fun s => strip s = []) segments -> tier3 w audio = []))
  /\ ((exists t, whisper_transcribe w audio st
                 = (Ok t, add_trace st [Transcribe audio]))
      <-> exists segments, engine w audio = Ok segments).
Proof.
  split; [intros ex He; apply whisper_transcribe_raises, He |].
  split.
  - intros segments He.
    assert (Hrun : whisper_transcribe w audio st
                   = (Ok (tier3 w audio), add_trace st [Transcribe audio])).
    { unfold whisper_transcribe, tier3, bind, lift, ret.
      rewrite emit_run, He. reflexivity. }
    split; [exact Hrun |]. unfold tier3. rewrite He.
    split; [apply strip_trimmed |]. split.
    + intros Hne. apply trimmed_strip, join_trimmed.
      apply Forall_fmap. eapply Forall_impl; [exact Hne |].
      intros s Hs. split; [exact Hs | apply strip_trimmed].
    + intros Hb. apply strip_blank, join_blank, Forall_fmap. exact Hb.
  - split.
    + intros (t & Ht). destruct (engine w audio) as [segs|ex] eqn:He; [eauto |].
      rewrite (whisper_transcribe_raises _ _ _ _ He) in Ht. discriminate.
    + intros (segs & He). exists (tier3 w audio).
      unfold whisper_transcribe, tier3, bind, lift, ret.
      rewrite emit_run, He. reflexivity.
Qed.

(** A blank segment between two others leaves two spaces. *)
Example whisper_blank_segment :
  (whisper_transcribe
     (mkWorld no_table Demo.loads Demo.dumps Demo.captions Demo.audio
              (fun _ => Ok [str " one "; str "  "; str "two"])
              (fun _ => Ok tt))
     (str "a.m4a") Demo.fresh).1
  = Ok (str "one  two").
Proof. vm_compute. reflexivity. Qed.

(** ** A slug is its own slug *)

Section Settled.
Variable cls : N -> bool.
Variable r : N.

Lemma re_sub_settled s :
  settled cls r (re_sub_plus cls [r] s)
  /\ settled cls r (re_sub_in cls [r] s)
  /\ (forall d, head (re_sub_in cls [r] s) = Some d -> cls d = false).
Proof.
  induction s as [|c s (IHp & IHi & IHh)]; simpl.
  - split; [exact I |]. split; [exact I | discriminate].
  - destruct (cls c) eqn:Hc.
    + split; [| split; assumption].
      simpl. split; [| exact IHi]. intros _. split; [reflexivity |].
      destruct (re_sub_in cls [r] s) as [|d t]; [exact I |].
      apply IHh. reflexivity.
    + split; [| split].
      * simpl. split; [| exact IHp]. rewrite Hc. discriminate.
      * simpl. split; [| exact IHp]. rewrite Hc. discriminate.
      * simpl. intros d [= <-]. exact Hc.
Qed.

Lemma settled_fixed s : settled cls r s -> re_sub_plus cls [r] s = s.
Proof.
  induction s as [|c s IH]; simpl; [reflexivity |].
  intros [Hc Hs]. destruct (cls c) eqn:Ec.
  - destruct (Hc eq_refl) as [-> Hnext]. simpl. f_equal.
    destruct s as [|d s]; [reflexivity |].
    specialize (IH Hs). simpl in *. rewrite Hnext in *. exact IH.
  - f_equal. apply IH, Hs.
Qed.

Lemma settled_app_l a b : settled cls r (a ++ b) -> settled cls r a.
Proof.
  induction a as [|c a IH]; simpl; [intros _; exact I |].
  intros [Hc Hs]. split; [| apply IH, Hs].
  intros Ec. destruct (Hc Ec) as [-> Hnext]. split; [reflexivity |].
  destruct a as [|d a]; [exact I | exact Hnext].
Qed.

Lemma settled_app_r a b : settled cls r (a ++ b) -> settled cls r b.
Proof.
  induction a as [|c a IH]; simpl; [auto |]. intros [_ Hs]. apply IH, Hs.
Qed.
End Settled.

Lemma re_sub_plus_none cls repl s :
  Forall (fun c => cls c = false) s -> re_sub_plus cls repl s = s.
Proof.
  induction 1 as [|c s Hc _ IH]; simpl; [reflexivity |].
  rewrite Hc, IH. reflexivity.
Qed.

Lemma in_safe_class_space c :
  in_safe_class c = true -> isspace c = true -> c = 32%N.
Proof. unfold in_safe_class, isspace. intros H1 H2. char_bools; lia. Qed.

Lemma in_safe_class_ascii c : in_safe_class c = true -> (c <? 128)%N = true.
Proof. unfold in_safe_class. intros H. apply N.ltb_lt. char_bools; lia. Qed.

Lemma safe_name_settled tbl s maxlen :
  settled isspace 32 (safe_name tbl s maxlen).
Proof.
  unfold safe_name, rstrip_chars, strip.
  set (t := re_sub_plus isspace (str " ") _).
  assert (Ht : settled isspace 32 t)
    by (apply (re_sub_settled isspace 32)).
  destruct (rstrip_by_prefix isspace t) as (u & Hu & _).
  rewrite Hu in Ht. apply settled_app_l in Ht.
  destruct (lstrip_by_suffix isspace (rstrip_by isspace t)) as (v & Hv & _).
  rewrite Hv in Ht. apply settled_app_r in Ht.
  set (x := lstrip_by isspace (rstrip_by isspace t)) in *.
  assert (Hx : settled isspace 32 (slice_to maxlen x)).
  { unfold slice_to. destruct (0 <=? maxlen)%Z.
    - rewrite <- (take_drop (Z.to_nat maxlen) x) in Ht.
      apply settled_app_l in Ht. exact Ht.
    - rewrite <- (take_drop (length x - Z.to_nat (- maxlen)) x) in Ht.
      apply settled_app_l in Ht. exact Ht. }
  destruct (rstrip_by_prefix (fun c => bool_decide (c ∈ str "._- "))
              (slice_to maxlen x)) as (y & Hy & _).
  rewrite Hy in Hx. apply settled_app_l in Hx. exact Hx.
Qed.

Lemma safe_name_head tbl s maxlen c :
  head (safe_name tbl s maxlen) = Some c -> isspace c = false.
Proof.
  unfold safe_name, rstrip_chars.
  set (x := strip (re_sub_plus isspace (str " ") _)).
  assert (Hx : forall d, head x = Some d -> isspace d = false)
    by (apply strip_trimmed).
  intros Hc.
  destruct (rstrip_by_prefix (fun c => bool_decide (c ∈ str "._- "))
              (slice_to maxlen x)) as (y & Hy & _).
  assert (Hs : head (slice_to maxlen x) = Some c).
  { rewrite Hy. destruct (rstrip_by _ (slice_to maxlen x)); [discriminate |].
    exact Hc. }
  apply Hx. unfold slice_to in Hs.
  destruct (0 <=? maxlen)%Z.
  - rewrite <- (take_drop (Z.to_nat maxlen) x).
    destruct (take (Z.to_nat maxlen) x); [discriminate | exact Hs].
  - rewrite <- (take_drop (length x - Z.to_nat (- maxlen)) x).
    destruct (take _ x); [discriminate | exact Hs].
Qed.

(** X14: [safe_name] gives back a slug unchanged: for a bound that is not
    negative, the slug of a slug is that slug, whatever the input and the
    transliteration table. *)
Theorem safe_name_idempotent (tbl : N -> pystr) (s : pystr) (maxlen : Z) :
  (0 <= maxlen)%Z ->
  safe_name tbl (safe_name tbl s maxlen) maxlen = safe_name tbl s maxlen.
Proof.
  intros Hm.
  pose proof (safe_name_in_class tbl s maxlen) as Hcls.
  pose proof (safe_name_settled tbl s maxlen) as Hset.
  pose proof (safe_name_head tbl s maxlen) as Hhead.
  pose proof (safe_name_last tbl s maxlen) as Hlast.
  pose proof (safe_name_length tbl s maxlen Hm) as Hlen.
  set (x := safe_name tbl s maxlen) in *.
  assert (Htrim : trimmed x).
  { split; [exact Hhead |]. intros c Hc.
    destruct (isspace c) eqn:Hsp; [| reflexivity].
    exfalso. apply (Hlast c Hc).
    assert (Hin : c ∈ x) by (apply last_Some_elem_of, Hc).
    rewrite Forall_forall in Hcls.
    rewrite (in_safe_class_space c (Hcls c Hin) Hsp).
    unfold str. simpl. set_solver. }
  unfold safe_name at 1.
  rewrite unidecode_ascii
    by (eapply Forall_impl; [exact Hcls | apply in_safe_class_ascii]).
  rewrite (trimmed_strip x Htrim).
  rewrite (re_sub_plus_none SAFE).
  2:{ eapply Forall_impl; [exact Hcls |]. intros c Hc. unfold SAFE.
      rewrite Hc. reflexivity. }
  change (str " ") with [32%N].
  rewrite (settled_fixed isspace 32 x Hset), (trimmed_strip x Htrim).
  unfold slice_to. destruct (Z.leb_spec 0 maxlen) as [_ | Hneg]; [| lia].
  rewrite take_ge by exact Hlen.
  unfold rstrip_chars. apply rstrip_by_id.
  intros c Hc. apply bool_decide_eq_false, (Hlast c Hc).
Qed.

Lemma safe_name_idempotent_demo :
  (0 <= 80)%Z
  /\ safe_name no_table (safe_name no_table (str " a!!b  c. ") 80) 80
     = safe_name no_table (str " a!!b  c. ") 80.
Proof. split; [lia | apply safe_name_idempotent; lia]. Defined.

(** With a negative bound every pass cuts again. *)
Example safe_name_negative_bound_cuts_again :
  safe_name no_table (str "abcd") (-1) = str "abc"
  /\ safe_name no_table (str "abc") (-1) = str "ab".
Proof. vm_compute. split; reflexivity. Qed.

(** ** Captions without text *)

Lemma strip_nil_blank s : strip s = [] <-> blank s.
Proof.
  split; [| apply strip_blank].
  unfold strip, blank. intros H.
  destruct (rstrip_by_prefix isspace s) as (t & Ht & Hall).
  destruct (lstrip_by_suffix isspace (rstrip_by isspace s)) as (u & Hu & Hpre).
  rewrite H, app_nil_r in Hu. rewrite Ht, Hu. apply Forall_app. tauto.
Qed.

Lemma replace_newlines_blank s : blank (replace_char 10 32 s) <-> blank s.
Proof.
  unfold blank, replace_char. rewrite Forall_fmap.
  apply Forall_iff. intros c. simpl.
  destruct (N.eqb_spec c 10) as [-> | _]; [| reflexivity].
  split; reflexivity.
Qed.

Lemma cue_text_nil cue : cue_text cue = [] <-> blank cue.
Proof.
  unfold cue_text. rewrite strip_nil_blank. apply replace_newlines_blank.
Qed.

Lemma cue_lines_nil cues : cue_lines cues = [] <-> Forall blank cues.
Proof.
  unfold cue_lines. rewrite filter_nil_iff, Forall_fmap.
  apply Forall_iff. intros cue. simpl. rewrite <- cue_text_nil.
  destruct (decide (cue_text cue = [])) as [He | Hne]; tauto.
Qed.

(** X15: [vtt_to_txt] returns the empty text exactly when no cue has
    anything but whitespace, and what it returns never starts or ends with
    whitespace. *)
Theorem vtt_to_txt_empty (cues : list pystr) :
  (vtt_to_txt cues = [] <-> Forall blank cues)
  /\ trimmed (vtt_to_txt cues).
Proof.
  split.
  - rewrite vtt_to_txt_collapse, <- cue_lines_nil.
    pose proof (cue_lines_trimmed cues) as Htr.
    destruct (cue_lines cues) as [|x l]; [tauto |].
    split; [| discriminate]. intros Hj. exfalso.
    inversion Htr as [|? ? [Hne _] _]; subst.
    rewrite collapse_repeats_cons in Hj.
    pose proof (join_head sp x (keep_changes x l) Hne) as Hh.
    rewrite Hj in Hh. destruct x; [congruence | discriminate].
  - unfold vtt_to_txt.
    destruct (foldl dedup_step _ _) as [out lst]. apply strip_trimmed.
Qed.

(** ** The caption languages *)

Lemma split_char_pieces sep s :
  Forall (fun p => sep ∉ p) (split_char sep s).
Proof.
  induction s as [|c s IH]; simpl.
  - constructor; [apply not_elem_of_nil | constructor].
  - destruct (N.eqb_spec c sep) as [-> | Hne].
    + constructor; [apply not_elem_of_nil | exact IH].
    + destruct (split_char sep s) as [|p ps].
      * constructor; [| constructor]. rewrite elem_of_cons, elem_of_nil.
        intros [Heq | []]. congruence.
      * inversion IH as [|? ? Hp Hps]; subst. constructor; [| exact Hps].
        rewrite elem_of_cons. intros [Heq | Hin]; [congruence | tauto].
Qed.

Lemma split_char_whole sep p : sep ∉ p -> split_char sep p = [p].
Proof.
  induction p as [|c p IH]; [reflexivity |].
  rewrite not_elem_of_cons. intros [Hne Hp]. simpl.
  destruct (N.eqb_spec c sep) as [-> | _]; [congruence |].
  rewrite (IH Hp). reflexivity.
Qed.

Lemma split_char_app sep p t :
  sep ∉ p -> split_char sep (p ++ sep :: t) = p :: split_char sep t.
Proof.
  induction p as [|c p IH]; simpl.
  - intros _. rewrite N.eqb_refl. reflexivity.
  - rewrite not_elem_of_cons. intros [Hne Hp].
    destruct (N.eqb_spec c sep) as [-> | _]; [congruence |].
    rewrite (IH Hp). reflexivity.
Qed.

Lemma split_char_join sep pieces :
  pieces <> [] -> Forall (fun p => sep ∉ p) pieces ->
  split_char sep (join [sep] pieces) = pieces.
Proof.
  intros Hne Hall. induction Hall as [|p ps Hp Hps IH]; [congruence |].
  destruct ps as [|q ps]; [apply split_char_whole, Hp |].
  change (join [sep] (p :: q :: ps)) with (p ++ sep :: join [sep] (q :: ps)).
  rewrite (split_char_app _ _ _ Hp), IH by discriminate. reflexivity.
Qed.

Lemma clean_codes_kept codes :
  Forall clean_code codes ->
  strip <$> filter (fun x => strip x <> []) codes = codes.
Proof.
  induction 1 as [|l codes (Hne & Htr & _) _ IH]; [reflexivity |].
  rewrite filter_cons, (trimmed_strip l Htr).
  destruct (decide (l <> [])) as [_ | Hn]; [| tauto].
  rewrite fmap_cons, (trimmed_strip l Htr).
  f_equal. exact IH.
Qed.

(** X16: the caption languages that [main] takes from [--langs]: every one
    is a code that is not empty, has no whitespace around it and no comma;
    pieces without a comma joined by commas come back trimmed, the blank
    ones dropped, so a list of such codes joined by commas comes back as it
    was. *)
Theorem lang_list_codes (langs : pystr) :
  Forall clean_code (lang_list langs)
  /\ (forall pieces,
        pieces <> [] -> Forall (fun p => comma ∉ p) pieces ->
        lang_list (join [comma] pieces)
        = strip <$> filter (fun x => strip x <> []) pieces)
  /\ (forall codes,
        Forall clean_code codes -> lang_list (join [comma] codes) = codes).
Proof.
  split; [| split].
  - unfold lang_list. apply Forall_fmap, Forall_forall. intros x Hx.
    apply list_elem_of_filter in Hx as [Hne Hin]. simpl.
    split; [exact Hne |]. split; [apply strip_trimmed |].
    pose proof (split_char_pieces comma langs) as Hp.
    rewrite Forall_forall in Hp. specialize (Hp x Hin).
    assert (Hall : Forall (fun c => c <> comma) (strip x)).
    { apply strip_Forall, Forall_forall. intros c Hc ->. exact (Hp Hc). }
    rewrite Forall_forall in Hall. intros Hc. exact (Hall _ Hc eq_refl).
  - intros pieces Hne Hall. unfold lang_list.
    rewrite (split_char_join _ _ Hne Hall). reflexivity.
  - intros codes Hall. destruct codes as [|l codes]; [reflexivity |].
    unfold lang_list. rewrite split_char_join.
    + apply clean_codes_kept, Hall.
    + discriminate.
    + eapply Forall_impl; [exact Hall |]. intros p (_ & _ & Hp). exact Hp.
Qed.

Example lang_list_example :
  lang_list (str "en, en-US ,,pt-BR ,") = [str "en"; str "en-US"; str "pt-BR"]
  /\ lang_list (str "") = [].
Proof. vm_compute. split; reflexivity. Qed.

(** ** The requests of a run *)






Example run_requests_example :
  trace (main Demo.forced Demo.world Demo.txt_dir
              [Demo.video_a; Demo.video_b] Demo.fresh).2
  = requests_of Demo.forced Demo.world [Demo.video_a; Demo.video_b].
Proof. vm_compute. reflexivity. Qed.

(** * Files on disk: properties *)

(** ** The codec *)

Lemma below_forallb (f : N -> bool) (n : nat) :
  forallb f (N.of_nat <$> seq 0 n) = true ->
  forall x, (x < N.of_nat n)%N -> f x = true.
Proof.
  intros H x Hx. rewrite forallb_forall in H. apply H.
  apply list_elem_of_In, list_elem_of_fmap. exists (N.to_nat x).
  split; [symmetry; apply N2Nat.id |].
  apply elem_of_seq. lia.
Qed.

Lemma lor_lead (hi width x : N) :
  forallb (fun x => N.lor hi x =? hi + x)%N
          (N.of_nat <$> seq 0 (N.to_nat width)) = true ->
  (x < width)%N -> N.lor hi x = (hi + x)%N.
Proof.
  intros H Hx. apply N.eqb_eq.
  apply (below_forallb (fun x => N.lor hi x =? hi + x)%N _ H).
  rewrite N2Nat.id. exact Hx.
Qed.

Lemma lor_128 x : (x < 64)%N -> N.lor 128 x = (128 + x)%N.
Proof. apply lor_lead. vm_compute. reflexivity. Qed.

Lemma lor_192 x : (x < 32)%N -> N.lor 192 x = (192 + x)%N.
Proof. apply lor_lead. vm_compute. reflexivity. Qed.

Lemma lor_224 x : (x < 16)%N -> N.lor 224 x = (224 + x)%N.
Proof. apply lor_lead. vm_compute. reflexivity. Qed.

Lemma lor_240 x : (x < 8)%N -> N.lor 240 x = (240 + x)%N.
Proof. apply lor_lead. vm_compute. reflexivity. Qed.

Lemma land_63 x : N.land x 63 = (x mod 64)%N.
Proof. change 63%N with (N.ones 6). rewrite N.land_ones. reflexivity. Qed.

Lemma shiftr_6 x : N.shiftr x 6 = (x / 64)%N.
Proof. rewrite N.shiftr_div_pow2. reflexivity. Qed.

Lemma shiftr_12 x : N.shiftr x 12 = (x / 4096)%N.
Proof. rewrite N.shiftr_div_pow2. reflexivity. Qed.

Lemma shiftr_18 x : N.shiftr x 18 = (x / 262144)%N.
Proof. rewrite N.shiftr_div_pow2. reflexivity. Qed.

(** The encoding of one code point, in arithmetic. *)
Lemma utf8_encode_char_arith c :
  (c <= 1114111)%N ->
  utf8_encode_char c
  = if (c <? 128)%N then [c]
    else if (c <? 2048)%N then [192 + c / 64; 128 + c mod 64]%N
    else if (c <? 65536)%N then
      [224 + c / 4096; 128 + (c / 64) mod 64; 128 + c mod 64]%N
    else
      [240 + c / 262144; 128 + (c / 4096) mod 64;
       128 + (c / 64) mod 64; 128 + c mod 64]%N.
Proof.
  intros Hc. unfold utf8_encode_char.
  rewrite !land_63, shiftr_6, shiftr_12, shiftr_18.
  destruct (N.ltb_spec c 128); [reflexivity |].
  destruct (N.ltb_spec c 2048).
  { rewrite lor_192, lor_128; [reflexivity | |].
    - apply N.mod_lt. discriminate.
    - apply N.Div0.div_lt_upper_bound. lia. }
  destruct (N.ltb_spec c 65536).
  { rewrite lor_224, !lor_128; [reflexivity | | |].
    - apply N.mod_lt. discriminate.
    - apply N.mod_lt. discriminate.
    - apply N.Div0.div_lt_upper_bound. lia. }
  rewrite lor_240, !lor_128; [reflexivity | | | |].
  - apply N.mod_lt. discriminate.
  - apply N.mod_lt. discriminate.
  - apply N.mod_lt. discriminate.
  - apply N.Div0.div_lt_upper_bound. lia.
Qed.

Section Codec.
Ltac Zify.zify_post_hook ::= Z.div_mod_to_equations.

Lemma utf8_decode_cons b0 r0 :
  utf8_decode (b0 :: r0)
  = if (b0 <? 128)%N then cons b0 <$> utf8_decode r0
    else if ((194 <=? b0) && (b0 <=? 223))%N then
      match r0 with
      | b1 :: r1 =>
          if continuation b1
          then cons ((b0 - 192) * 64 + (b1 - 128))%N <$> utf8_decode r1
          else None
      | _ => None
      end
    else if ((224 <=? b0) && (b0 <=? 239))%N then
      match r0 with
      | b1 :: b2 :: r2 =>
          let c := ((b0 - 224) * 4096 + (b1 - 128) * 64 + (b2 - 128))%N in
          if continuation b1 && continuation b2
             && (2048 <=? c)%N && negb (surrogate c)
          then cons c <$> utf8_decode r2
          else None
      | _ => None
      end
    else if ((240 <=? b0) && (b0 <=? 244))%N then
      match r0 with
      | b1 :: b2 :: b3 :: r3 =>
          let c := ((b0 - 240) * 262144 + (b1 - 128) * 4096
                    + (b2 - 128) * 64 + (b3 - 128))%N in
          if continuation b1 && continuation b2 && continuation b3
             && (65536 <=? c)%N && (c <=? 1114111)%N
          then cons c <$> utf8_decode r3
          else None
      | _ => None
      end
    else None.
Proof. reflexivity. Qed.

Ltac bounds :=
  unfold continuation, surrogate, encodable in *;
  repeat match goal with
  | H : _ && _ = true |- _ => apply andb_true_iff in H; destruct H
  | H : negb _ = true |- _ => apply negb_true_iff in H
  | H : _ && _ = false |- _ => apply andb_false_iff in H
  | H : (_ <=? _)%N = true |- _ => apply N.leb_le in H
  | H : (_ <=? _)%N = false |- _ => apply N.leb_gt in H
  | H : (_ <? _)%N = true |- _ => apply N.ltb_lt in H
  | H : (_ <? _)%N = false |- _ => apply N.ltb_ge in H
  end.

(** One code point read from the head of the bytes, with what follows. *)
Lemma utf8_decode_head bs t :
  utf8_decode bs = Some t ->
  bs = [] /\ t = []
  \/ exists c head rest t',
       bs = head ++ rest /\ head <> [] /\ t = c :: t'
       /\ utf8_decode rest = Some t'
       /\ encodable c = true /\ utf8_encode_char c = head.
Proof.
  destruct bs as [|b0 r0]; [intros [= <-]; left; auto |].
  rewrite utf8_decode_cons. intros H. right.
  destruct (b0 <? 128)%N eqn:H0.
  { destruct (utf8_decode r0) as [t'|] eqn:Hr; [| discriminate].
    injection H as <-. exists b0, [b0], r0, t'.
    split; [reflexivity |]. split; [discriminate |].
    split; [reflexivity |]. split; [exact Hr |].
    bounds. split.
    - unfold encodable, surrogate.
      apply andb_true_iff. split; [apply negb_true_iff, andb_false_iff; left;
                                   apply N.leb_gt; lia | apply N.leb_le; lia].
    - rewrite utf8_encode_char_arith by lia.
      destruct (N.ltb_spec b0 128); [reflexivity | lia]. }
  destruct ((194 <=? b0) && (b0 <=? 223))%N eqn:H1.
  { destruct r0 as [|b1 r1]; [discriminate |].
    destruct (continuation b1) eqn:C1; [| discriminate].
    destruct (utf8_decode r1) as [t'|] eqn:Hr; [| discriminate].
    injection H as <-.
    exists ((b0 - 192) * 64 + (b1 - 128))%N, [b0; b1], r1, t'.
    split; [reflexivity |]. split; [discriminate |].
    split; [reflexivity |]. split; [exact Hr |].
    bounds. split.
    - apply andb_true_iff. split; [apply negb_true_iff, andb_false_iff; left;
                                   apply N.leb_gt; lia | apply N.leb_le; lia].
    - rewrite utf8_encode_char_arith by lia.
      destruct (N.ltb_spec ((b0 - 192) * 64 + (b1 - 128)) 128); [lia |].
      destruct (N.ltb_spec ((b0 - 192) * 64 + (b1 - 128)) 2048); [| lia].
      rewrite ?N.Div0.mod_eq. f_equal; [lia |]. f_equal. lia. }
  destruct ((224 <=? b0) && (b0 <=? 239))%N eqn:H2.
  { destruct r0 as [|b1 [|b2 r2]]; [discriminate | discriminate |].
    cbv zeta in H.
    destruct (continuation b1 && continuation b2
              && (2048 <=? (b0 - 224) * 4096 + (b1 - 128) * 64 + (b2 - 128))%N
              && negb (surrogate ((b0 - 224) * 4096 + (b1 - 128) * 64
                                  + (b2 - 128)))) eqn:C; [| discriminate].
    destruct (utf8_decode r2) as [t'|] eqn:Hr; [| discriminate].
    injection H as <-.
    exists ((b0 - 224) * 4096 + (b1 - 128) * 64 + (b2 - 128))%N,
           [b0; b1; b2], r2, t'.
    split; [reflexivity |]. split; [discriminate |].
    split; [reflexivity |]. split; [exact Hr |].
    apply andb_true_iff in C as [C Hs]. split.
    - unfold encodable. rewrite Hs. bounds. apply N.leb_le. lia.
    - bounds. rewrite utf8_encode_char_arith by lia.
      set (c := ((b0 - 224) * 4096 + (b1 - 128) * 64 + (b2 - 128))%N) in *.
      destruct (N.ltb_spec c 128); [lia |].
      destruct (N.ltb_spec c 2048); [lia |].
      destruct (N.ltb_spec c 65536); [| lia].
      subst c. f_equal; [lia |]. rewrite ?N.Div0.mod_eq. f_equal; [lia |]. f_equal. lia. }
  destruct ((240 <=? b0) && (b0 <=? 244))%N eqn:H3; [| discriminate].
  destruct r0 as [|b1 [|b2 [|b3 r3]]]; try discriminate.
  cbv zeta in H.
  set (c := ((b0 - 240) * 262144 + (b1 - 128) * 4096
             + (b2 - 128) * 64 + (b3 - 128))%N) in *.
  destruct (continuation b1 && continuation b2 && continuation b3
            && (65536 <=? c)%N && (c <=? 1114111)%N) eqn:C; [| discriminate].
  destruct (utf8_decode r3) as [t'|] eqn:Hr; [| discriminate].
  injection H as <-.
  exists c, [b0; b1; b2; b3], r3, t'.
  split; [reflexivity |]. split; [discriminate |].
  split; [reflexivity |]. split; [exact Hr |].
  bounds. split.
  - apply andb_true_iff. split; [apply negb_true_iff, andb_false_iff; right;
                                 apply N.leb_gt; lia | apply N.leb_le; lia].
  - rewrite utf8_encode_char_arith by lia.
    destruct (N.ltb_spec c 128); [lia |].
    destruct (N.ltb_spec c 2048); [lia |].
    destruct (N.ltb_spec c 65536); [lia |].
    subst c. rewrite ?N.Div0.mod_eq.
    f_equal; [lia |]. f_equal; [lia |]. f_equal; [lia |]. f_equal. lia.
Qed.

(** What decodes is the encoding of the text it decodes to, and that text
    holds no surrogate. *)
Lemma utf8_decode_sound bs t :
  utf8_decode bs = Some t ->
  utf8_encode t = bs /\ Forall (fun c => encodable c = true) t.
Proof.
  remember (length bs) as n eqn:Hn. revert bs t Hn.
  induction (lt_wf n) as [n _ IH]. intros bs t Hn H.
  destruct (utf8_decode_head bs t H)
    as [[-> ->] | (c & head & rest & t' & -> & Hne & -> & Hr & Hc & He)].
  - split; [reflexivity | constructor].
  - destruct (IH (length rest)) with (bs := rest) (t := t') as [Henc Hall];
      [| reflexivity | exact Hr |].
    + subst n. rewrite length_app. destruct head; [congruence | simpl; lia].
    + split; [| constructor; assumption].
      unfold utf8_encode in *. rewrite bind_cons, He, Henc. reflexivity.
Qed.

Lemma utf8_decode_char c rest :
  encodable c = true ->
  utf8_decode (utf8_encode_char c ++ rest) = cons c <$> utf8_decode rest.
Proof.
  intros Hc. unfold encodable, surrogate in Hc.
  apply andb_true_iff in Hc as [Hsur Hmax].
  apply negb_true_iff, andb_false_iff in Hsur. apply N.leb_le in Hmax.
  assert (Hs : (c < 55296 \/ 57343 < c)%N)
    by (destruct Hsur as [Hsur | Hsur]; apply N.leb_gt in Hsur; lia).
  clear Hsur. rewrite utf8_encode_char_arith by lia.
  destruct (N.ltb_spec c 128) as [H1 | H1].
  { simpl app. rewrite utf8_decode_cons.
    destruct (N.ltb_spec c 128); [reflexivity | lia]. }
  destruct (N.ltb_spec c 2048) as [H2 | H2].
  { simpl app. rewrite utf8_decode_cons. rewrite ?N.Div0.mod_eq.
    destruct (N.ltb_spec (192 + c / 64) 128); [lia |].
    replace ((194 <=? 192 + c / 64) && (192 + c / 64 <=? 223))%N with true
      by (symmetry; apply andb_true_iff; split; apply N.leb_le; lia).
    unfold continuation.
    replace ((128 <=? 128 + (c - 64 * (c / 64)))
             && (128 + (c - 64 * (c / 64)) <=? 191))%N with true
      by (symmetry; apply andb_true_iff; split; apply N.leb_le; lia).
    f_equal. f_equal. lia. }
  destruct (N.ltb_spec c 65536) as [H3 | H3].
  { simpl app. rewrite utf8_decode_cons. rewrite ?N.Div0.mod_eq.
    destruct (N.ltb_spec (224 + c / 4096) 128); [lia |].
    replace ((194 <=? 224 + c / 4096) && (224 + c / 4096 <=? 223))%N
      with false by (symmetry; apply andb_false_iff; right; apply N.leb_gt; lia).
    replace ((224 <=? 224 + c / 4096) && (224 + c / 4096 <=? 239))%N
      with true by (symmetry; apply andb_true_iff; split; apply N.leb_le; lia).
    cbv zeta.
    set (b1 := (128 + (c / 64 - 64 * (c / 64 / 64)))%N).
    set (b2 := (128 + (c - 64 * (c / 64)))%N).
    assert (Hv : ((224 + c / 4096 - 224) * 4096 + (b1 - 128) * 64
                  + (b2 - 128) = c)%N) by (subst b1 b2; lia).
    rewrite Hv. unfold continuation, surrogate.
    replace ((128 <=? b1) && (b1 <=? 191))%N with true
      by (symmetry; apply andb_true_iff; split; apply N.leb_le; subst b1; lia).
    replace ((128 <=? b2) && (b2 <=? 191))%N with true
      by (symmetry; apply andb_true_iff; split; apply N.leb_le; subst b2; lia).
    replace (2048 <=? c)%N with true by (symmetry; apply N.leb_le; lia).
    replace ((55296 <=? c) && (c <=? 57343))%N with false
      by (symmetry; apply andb_false_iff;
          destruct Hs; [left | right]; apply N.leb_gt; lia).
    reflexivity. }
  simpl app. rewrite utf8_decode_cons. rewrite ?N.Div0.mod_eq.
  destruct (N.ltb_spec (240 + c / 262144) 128); [lia |].
  replace ((194 <=? 240 + c / 262144) && (240 + c / 262144 <=? 223))%N
    with false by (symmetry; apply andb_false_iff; right; apply N.leb_gt; lia).
  replace ((224 <=? 240 + c / 262144) && (240 + c / 262144 <=? 239))%N
    with false by (symmetry; apply andb_false_iff; right; apply N.leb_gt; lia).
  replace ((240 <=? 240 + c / 262144) && (240 + c / 262144 <=? 244))%N
    with true by (symmetry; apply andb_true_iff; split; apply N.leb_le; lia).
  cbv zeta.
  set (b1 := (128 + (c / 4096 - 64 * (c / 4096 / 64)))%N).
  set (b2 := (128 + (c / 64 - 64 * (c / 64 / 64)))%N).
  set (b3 := (128 + (c - 64 * (c / 64)))%N).
  assert (Hv : ((240 + c / 262144 - 240) * 262144 + (b1 - 128) * 4096
                + (b2 - 128) * 64 + (b3 - 128) = c)%N)
    by (subst b1 b2 b3; lia).
  rewrite Hv. unfold continuation.
  replace ((128 <=? b1) && (b1 <=? 191))%N with true
    by (symmetry; apply andb_true_iff; split; apply N.leb_le; subst b1; lia).
  replace ((128 <=? b2) && (b2 <=? 191))%N with true
    by (symmetry; apply andb_true_iff; split; apply N.leb_le; subst b2; lia).
  replace ((128 <=? b3) && (b3 <=? 191))%N with true
    by (symmetry; apply andb_true_iff; split; apply N.leb_le; subst b3; lia).
  replace (65536 <=? c)%N with true by (symmetry; apply N.leb_le; lia).
  replace (c <=? 1114111)%N with true by (symmetry; apply N.leb_le; lia).
  reflexivity.
Qed.

(** What the codec writes it reads back. *)
Lemma utf8_decode_encode t :
  Forall (fun c => encodable c = true) t ->
  utf8_decode (utf8_encode t) = Some t.
Proof.
  induction 1 as [|c t Hc _ IH]; [reflexivity |].
  unfold utf8_encode in *. rewrite bind_cons, (utf8_decode_char c _ Hc), IH.
  reflexivity.
Qed.
End Codec.

(** ** Universal newlines *)

Lemma universal_newlines_id s : 13%N ∉ s -> universal_newlines s = s.
Proof.
  induction s as [|c s IH]; [reflexivity |].
  rewrite not_elem_of_cons. intros [Hc Hs]. simpl.
  destruct (N.eqb_spec c 13) as [-> | _]; [congruence |].
  rewrite (IH Hs). reflexivity.
Qed.


(** What text mode reads holds no carriage return. *)
Lemma universal_newlines_no_cr s : 13%N ∉ universal_newlines s.
Proof.
  remember (length s) as n eqn:Hn. revert s Hn.
  induction (lt_wf n) as [n _ IH]. intros s Hn.
  destruct s as [|c s]; [apply not_elem_of_nil |]. simpl.
  destruct (N.eqb_spec c 13) as [-> | Hc].
  - rewrite not_elem_of_cons. split; [discriminate |].
    destruct s as [|d s]; [apply not_elem_of_nil |].
    destruct (d =? 10)%N.
    + apply (IH (length s)); [subst n; simpl; lia | reflexivity].
    + apply (IH (length (d :: s))); [subst n; simpl; lia | reflexivity].
  - rewrite not_elem_of_cons. split; [congruence |].
    apply (IH (length s)); [subst n; simpl; lia | reflexivity].
Qed.

(** ** Reading and writing *)

Lemma encodable_10 : encodable 10 = true.
Proof. reflexivity. Qed.


Lemma read_text_undecodable bs :
  utf8_decode bs = None -> read_text bs = Raised (Exception "UnicodeDecodeError").
Proof. intros H. unfold read_text. rewrite H. reflexivity. Qed.

Lemma encode_text_encodable t :
  Forall (fun c => encodable c = true) t -> encode_text t = Ok (utf8_encode t).
Proof.
  intros H. unfold encode_text.
  replace (forallb encodable t) with true; [reflexivity |].
  symmetry. apply forallb_forall. intros c Hc.
  rewrite Forall_forall in H. apply H, list_elem_of_In, Hc.
Qed.

Lemma encode_text_surrogate t c :
  c ∈ t -> encodable c = false ->
  encode_text t = Raised (Exception "UnicodeEncodeError").
Proof.
  intros Hc He. unfold encode_text.
  destruct (forallb encodable t) eqn:Hall; [| reflexivity].
  rewrite forallb_forall in Hall.
  rewrite (Hall c) in He by (apply list_elem_of_In, Hc). discriminate.
Qed.


(** A surrogate in the text empties the file. *)
Lemma write_text_surrogate t c :
  c ∈ t -> encodable c = false ->
  write_text t = (Raised (Exception "UnicodeEncodeError"), []).
Proof.
  intros Hc He. unfold write_text. rewrite (encode_text_surrogate t c Hc He).
  reflexivity.
Qed.

Lemma utf8_encode_app s t : utf8_encode (s ++ t) = utf8_encode s ++ utf8_encode t.
Proof. unfold utf8_encode. apply bind_app. Qed.

(** A text that was written, without a carriage return in it, is read back
    as it was. *)
Lemma read_text_written t :
  Forall (fun c => encodable c = true) t -> 13%N ∉ t ->
  read_text (utf8_encode t) = Ok t.
Proof.
  intros He Hcr. unfold read_text.
  rewrite (utf8_decode_encode t He), (universal_newlines_id t Hcr). reflexivity.
Qed.

(** ** The loader on the ledger file *)

Lemma read_manifest_ids_file_undecodable w bs :
  utf8_decode bs = None ->
  read_manifest_ids_file w (Some bs) = Raised (Exception "UnicodeDecodeError").
Proof.
  intros H. unfold read_manifest_ids_file.
  rewrite (read_text_undecodable bs H). reflexivity.
Qed.

(** On a file that decodes, the loader is the loop on the text read: it
    returns, with the ids of the lines that give one. *)
Lemma read_manifest_ids_file_decoded w bs t :
  utf8_decode bs = Some t ->
  read_manifest_ids_file w (Some bs)
  = Ok (foldl (add_line w) ∅ (readlines (universal_newlines t)))
  /\ forall k,
       k ∈ foldl (add_line w) ∅ (readlines (universal_newlines t))
       <-> exists line,
             line ∈ readlines (universal_newlines t) /\ gives_id w line k.
Proof.
  intros H. unfold read_manifest_ids_file, read_text. rewrite H.
  rewrite read_manifest_ids_run. split; [reflexivity |].
  intros k. rewrite elem_of_foldl_add_line. split; [| auto].
  intros [Hk | Hk]; [| exact Hk]. apply not_elem_of_empty in Hk. contradiction.
Qed.

(** The loader raises exactly on the files that do not decode. *)
Lemma read_manifest_ids_file_raises w bs :
  (exists e, read_manifest_ids_file w (Some bs) = Raised e)
  <-> utf8_decode bs = None.
Proof.
  split.
  - intros [e He]. destruct (utf8_decode bs) as [t|] eqn:Hd; [| reflexivity].
    rewrite (proj1 (read_manifest_ids_file_decoded w bs t Hd)) in He.
    discriminate.
  - intros H. eexists. apply read_manifest_ids_file_undecodable, H.
Qed.

Lemma read_manifest_ids_file_lines w bs t lines :
  utf8_decode bs = Some t ->
  readlines (universal_newlines t) = lines ->
  read_manifest_ids_file w (Some bs) = Ok (foldl (add_line w) ∅ lines).
Proof.
  intros Hd <-. apply (read_manifest_ids_file_decoded w bs t Hd).
Qed.

(** C3 (where the code departs from it): a ledger that holds the record of
    the first video and then a record cut inside the two bytes of a
    non-ASCII character of its title. The loader raises
    [UnicodeDecodeError]: the bytes are decoded by the iteration over the
    file, outside the [try] that skips a line; nothing is loaded, not even
    the id of the whole record before. Cut one byte earlier, the same record
    is a line that fails to parse and is skipped, and the loader returns the
    id of the record before it; written in full, it adds its id. *)
Theorem torn_ledger_aborts_load :
  Disk.torn_inside = Disk.torn_before ++ [195%N]
  /\ utf8_encode (Demo.line_a ++ Disk.line_c)
     = Disk.torn_before ++ [195%N; 169%N]
       ++ utf8_encode (drop (length Disk.cut_line + 1) Disk.line_c)
  /\ read_manifest_ids_file Demo.world (Some Disk.torn_inside)
     = Raised (Exception "UnicodeDecodeError")
  /\ read_manifest_ids_file Demo.world (Some Disk.torn_before)
     = Ok {[KStr (str "aaa")]}
  /\ read_manifest_ids_file Demo.world
       (Some (utf8_encode (Demo.line_a ++ Disk.line_c)))
     = Ok ({[KStr (str "ccc")]} ∪ {[KStr (str "aaa")]}).
Proof.
  split; [reflexivity |].
  split; [vm_compute; reflexivity |].
  split; [apply read_manifest_ids_file_undecodable; vm_compute; reflexivity |].
  split.
  - rewrite (read_manifest_ids_file_lines Demo.world Disk.torn_before
               (Demo.line_a ++ Disk.cut_line) [Demo.line_a; Disk.cut_line]);
      [| vm_compute; reflexivity | vm_compute; reflexivity].
    cbn [foldl]. unfold add_line.
    replace (line_key Demo.world Demo.line_a) with (Some (KStr (str "aaa")))
      by (vm_compute; reflexivity).
    replace (line_key Demo.world Disk.cut_line) with (@None Key)
      by (vm_compute; reflexivity).
    rewrite (right_id_L ∅ (∪)). reflexivity.
  - rewrite (read_manifest_ids_file_lines Demo.world
               (utf8_encode (Demo.line_a ++ Disk.line_c))
               (Demo.line_a ++ Disk.line_c) [Demo.line_a; Disk.line_c]);
      [| vm_compute; reflexivity | vm_compute; reflexivity].
    cbn [foldl]. unfold add_line.
    replace (line_key Demo.world Demo.line_a) with (Some (KStr (str "aaa")))
      by (vm_compute; reflexivity).
    replace (line_key Demo.world Disk.line_c) with (Some (KStr (str "ccc")))
      by (vm_compute; reflexivity).
    rewrite (right_id_L ∅ (∪)). reflexivity.
Qed.

(** ** The update of the combined document *)



(** A document that does not decode stops the run and stays as it is. *)
Lemma write_combined_file_undecodable file parts :
  utf8_decode file = None ->
  write_combined_file (Some file) parts
  = (Raised (Exception "UnicodeDecodeError"), Some file).
Proof.
  intros Hd. unfold write_combined_file.
  rewrite (read_text_undecodable file Hd). reflexivity.
Qed.







(** ** The append to the ledger file *)

Lemma utf8_decode_app a b s t :
  utf8_decode a = Some s -> utf8_decode b = Some t ->
  utf8_decode (a ++ b) = Some (s ++ t).
Proof.
  intros Ha Hb.
  destruct (utf8_decode_sound a s Ha) as [<- Hs].
  destruct (utf8_decode_sound b t Hb) as [<- Ht].
  rewrite <- utf8_encode_app. apply utf8_decode_encode.
  apply Forall_app. split; assumption.
Qed.

Lemma universal_newlines_app a b :
  head b <> Some 10%N ->
  universal_newlines (a ++ b) = universal_newlines a ++ universal_newlines b.
Proof.
  intros Hb. remember (length a) as n eqn:Hn. revert a Hn.
  induction (lt_wf n) as [n _ IH]. intros a Hn.
  destruct a as [|c a]; [reflexivity |].
  assert (IHa : universal_newlines (a ++ b)
                = universal_newlines a ++ universal_newlines b)
    by (apply (IH (length a)); [subst n; simpl; lia | reflexivity]).
  destruct a as [|d a].
  - simpl. destruct (c =? 13)%N; [| reflexivity].
    destruct b as [|e b]; [reflexivity |].
    destruct (N.eqb_spec e 10) as [-> | _]; [destruct Hb; reflexivity |].
    reflexivity.
  - change (universal_newlines ((c :: d :: a) ++ b))
      with (if (c =? 13)%N then
              10%N :: (if (d =? 10)%N then universal_newlines (a ++ b)
                       else universal_newlines ((d :: a) ++ b))
            else c :: universal_newlines ((d :: a) ++ b)).
    change (universal_newlines (c :: d :: a))
      with (if (c =? 13)%N then
              10%N :: (if (d =? 10)%N then universal_newlines a
                       else universal_newlines (d :: a))
            else c :: universal_newlines (d :: a)).
    rewrite IHa.
    rewrite (IH (length a) ltac:(subst n; simpl; lia) a eq_refl).
    destruct (c =? 13)%N; [destruct (d =? 10)%N |]; reflexivity.
Qed.

Lemma read_manifest_ids_file_ids w file t :
  utf8_decode (default [] file) = Some t ->
  read_manifest_ids_file w file
  = Ok (foldl (add_line w) ∅ (readlines (universal_newlines t))).
Proof.
  destruct file as [bs|]; simpl; intros Hd.
  - apply (read_manifest_ids_file_decoded w bs t Hd).
  - injection Hd as <-. reflexivity.
Qed.

(** X18: [append_manifest] and [read_manifest_ids] on the bytes of the
    ledger file. When the file decodes and what text mode reads of it is
    empty or ends in a newline: a record whose line encodes, is not empty,
    holds no newline or carriage return and is read back as a record of id
    [k] is appended after the bytes the file held, and the loader then
    returns the ids it returned before and [k]; a record with a code point
    that does not encode makes the append raise [UnicodeEncodeError] before
    a byte is written, and the ledger loads to the ids it loaded to. *)
Theorem append_then_load_on_disk (w : World) (rec : JValue)
    (file : option (list N)) (t : pystr) :
  utf8_decode (default [] file) = Some t ->
  universal_newlines t = [] \/ last (universal_newlines t) = Some 10%N ->
  exists ids,
    read_manifest_ids_file w file = Ok ids
    /\ (forall k,
          json_dumps w rec <> [] ->
          (10%N ∉ json_dumps w rec) -> (13%N ∉ json_dumps w rec) ->
          Forall (fun c => encodable c = true) (json_dumps w rec) ->
          line_key w (json_dumps w rec ++ nl) = Some k ->
          append_manifest_file w rec file
          = (Ok tt,
             Some (default [] file ++ utf8_encode (json_dumps w rec ++ nl)))
          /\ read_manifest_ids_file w
               (Some (default [] file ++ utf8_encode (json_dumps w rec ++ nl)))
             = Ok ({[k]} ∪ ids))
    /\ (forall c,
          c ∈ json_dumps w rec -> encodable c = false ->
          append_manifest_file w rec file
          = (Raised (Exception "UnicodeEncodeError"), Some (default [] file))
          /\ read_manifest_ids_file w (Some (default [] file)) = Ok ids).
Proof.
  intros Hd Hclosed.
  exists (foldl (add_line w) ∅ (readlines (universal_newlines t))).
  split; [apply read_manifest_ids_file_ids, Hd |]. split.
  - intros k Hne Hnl Hcr Henc Hk.
    assert (Hline : Forall (fun c => encodable c = true)
                           (json_dumps w rec ++ nl))
      by (apply Forall_app; split; [exact Henc | repeat constructor]).
    split.
    + unfold append_manifest_file.
      rewrite (encode_text_encodable _ Hline). reflexivity.
    + assert (Hd' : utf8_decode (default [] file
                                 ++ utf8_encode (json_dumps w rec ++ nl))
                    = Some (t ++ json_dumps w rec ++ nl))
        by (apply utf8_decode_app; [exact Hd | apply utf8_decode_encode, Hline]).
      rewrite (proj1 (read_manifest_ids_file_decoded w _ _ Hd')).
      rewrite universal_newlines_app.
      2:{ destruct (json_dumps w rec) as [|c r]; [congruence |].
          simpl. intros [= ->]. apply Hnl. left. }
      rewrite (universal_newlines_id (json_dumps w rec ++ nl)).
      2:{ rewrite elem_of_app. intros [H | H]; [exact (Hcr H) |].
          apply list_elem_of_singleton in H. discriminate. }
      rewrite readlines_append by assumption.
      rewrite foldl_add_line_snoc. unfold add_line at 1. rewrite Hk.
      reflexivity.
  - intros c Hc He. split.
    + unfold append_manifest_file.
      rewrite (encode_text_surrogate (json_dumps w rec ++ nl) c);
        [reflexivity | apply elem_of_app; left; exact Hc | exact He].
    + apply (read_manifest_ids_file_decoded w _ t Hd).
Qed.

(** The ledger of the first run and the record of the video with the
    accent. *)
Lemma append_then_load_on_disk_demo :
  utf8_decode (default [] (Some (utf8_encode Demo.line_a)))
  = Some Demo.line_a
  /\ (universal_newlines Demo.line_a = []
      \/ last (universal_newlines Demo.line_a) = Some 10%N)
  /\ exists ids,
       read_manifest_ids_file Demo.world (Some (utf8_encode Demo.line_a))
       = Ok ids
       /\ read_manifest_ids_file Demo.world
            (Some (utf8_encode Demo.line_a ++ utf8_encode Disk.line_c))
          = Ok ({[KStr (str "ccc")]} ∪ ids).
Proof.
  assert (Hd : utf8_decode (default [] (Some (utf8_encode Demo.line_a)))
               = Some Demo.line_a) by (vm_compute; reflexivity).
  assert (Hc : universal_newlines Demo.line_a = []
               \/ last (universal_newlines Demo.line_a) = Some 10%N)
    by (right; vm_compute; reflexivity).
  split; [exact Hd |]. split; [exact Hc |].
  destruct (append_then_load_on_disk Demo.world
              (entry_record Demo.world Demo.txt_dir Disk.video_c)
              (Some (utf8_encode Demo.line_a)) Demo.line_a Hd Hc)
    as (ids & Hids & Happ & _).
  exists ids. split; [exact Hids |].
  apply (Happ (KStr (str "ccc"))).
  - discriminate.
  - apply (bool_decide_unpack _). vm_compute. exact I.
  - apply (bool_decide_unpack _). vm_compute. exact I.
  - apply (bool_decide_unpack _). vm_compute. exact I.
  - vm_compute. reflexivity.
Defined.
